(** * cells-sync, package [endpoint/fs]: the filesystem endpoint

    A shallow embedding of [src/endpoint/fs/fs.go] and the properties of it
    that the specification states.

    Conventions.
    - Go strings are byte strings: [string].
    - [int], [int64] and [uint32] values are [Z]; the bit tests of the
      notification mask use [Z.land].
    - The storage backend [afero.Fs] is an interface: a type class [Fs] over
      the type of storage states, with explicit state passing.
    - Goroutines and channels are a step relation over a record of channel
      buffers and program counters. *)

From Stdlib Require Import ZArith Lia Ascii.
From stdpp Require Import base option list strings gmap sorting.

Local Open Scope Z_scope.

(* ===================================================================== *)
(** * Go's [strings] package (the functions the source calls) *)
(* ===================================================================== *)

Module strings.

(** [strings.ContainsRune] restricted to bytes. *)
Fixpoint containsByte (set : string) (c : ascii) : bool :=
  match set with
  | EmptyString => false
  | String d set' => if Ascii.eqb c d then true else containsByte set' c
  end.

(** [strings.TrimLeft(s, cutset)]: drop the leading bytes of [s] that
    occur in [cutset]. *)
Fixpoint TrimLeft (s cutset : string) : string :=
  match s with
  | EmptyString => EmptyString
  | String c s' => if containsByte cutset c then TrimLeft s' cutset else s
  end.

Definition HasPrefix (s pre : string) : bool := String.prefix pre s.

(** [s[n:]] *)
Fixpoint drop (n : nat) (s : string) : string :=
  match n, s with
  | O, _ => s
  | S n', String _ s' => drop n' s'
  | S _, EmptyString => EmptyString
  end.

(** [strings.TrimPrefix(s, prefix)] *)
Definition TrimPrefix (s pre : string) : string :=
  if HasPrefix s pre then drop (String.length pre) s else s.

(** [strings.Replace(s, old, new, -1)] for a non-empty [old]: replace
    every non-overlapping occurrence, scanning from the left. The fuel is
    the length of [s]. *)
Fixpoint replaceAll (fuel : nat) (s old new : string) : string :=
  match fuel with
  | O => s
  | S fuel' =>
      match s with
      | EmptyString => EmptyString
      | String c s' =>
          if HasPrefix s old
          then new +:+ replaceAll fuel' (drop (String.length old) s) old new
          else String c (replaceAll fuel' s' old new)
      end
  end.

Definition Replace (s old new : string) : string :=
  replaceAll (String.length s) s old new.

(** [strings.HasSuffix] *)
Definition HasSuffix (s suf : string) : bool :=
  let n := String.length s in
  let k := String.length suf in
  if (k <=? n)%nat then String.eqb (drop (n - k) s) suf else false.

(** [strings.ToLower] on bytes (ASCII letters only). *)
Definition lowerByte (c : ascii) : ascii :=
  let n := nat_of_ascii c in
  if ((65 <=? n) && (n <=? 90))%nat then ascii_of_nat (n + 32) else c.

Fixpoint ToLower (s : string) : string :=
  match s with
  | EmptyString => EmptyString
  | String c s' => String (lowerByte c) (ToLower s')
  end.

End strings.

(* ===================================================================== *)
(** * Platform constants *)
(* ===================================================================== *)

Definition macOS : string := "darwin".
Definition win : string := "windows".

(** Modelled from the spec: [common.InternalPathSeparator], a constant of the
    [sync/common] package, which is not under [src/]; the canonical form is
    "forward-slash separated". *)
Definition InternalPathSeparator : string := "/".

(** [os.PathSeparator] of the Go runtime, by [runtime.GOOS]. *)
Definition PathSeparator (GOOS : string) : ascii :=
  if String.eqb GOOS win then "\"%char else "/"%char.

(* ===================================================================== *)
(** * Path Normalizer: [init], [normalize], [denormalize] *)
(* ===================================================================== *)

(** The closure [path] of [init]. *)
Definition path (p : string) : string :=
  "/" +:+ strings.TrimLeft p InternalPathSeparator.

(** The package-level variables [normalize, denormalize func(string) string]
    start as [nil]; [None] is the nil function value. *)
Record normalizer := Normalizer {
  normalize_var : option (string → string);
  denormalize_var : option (string → string)
}.

Section Init.
(** [norm.NFC.Bytes] and [norm.NFD.Bytes] of [golang.org/x/text], on byte
    strings. *)
Variables NFC NFD : string → string.

(** [init]: the [switch runtime.GOOS] has the two cases [macOS] and [win]
    and no [default]. *)
Definition init (GOOS : string) : normalizer :=
  if String.eqb GOOS macOS then
    Normalizer (Some (λ p, NFC (path p))) (Some (λ p, NFD (path p)))
  else if String.eqb GOOS win then
    Normalizer
      (Some (λ p, strings.Replace (path p)
                    (String (PathSeparator GOOS) EmptyString)
                    InternalPathSeparator))
      (Some (λ p, strings.Replace (path p)
                    InternalPathSeparator
                    (String (PathSeparator GOOS) EmptyString)))
  else
    Normalizer None None.
End Init.

(** A call of a function value: calling [nil] panics. *)
Inductive outcome (A : Type) : Type :=
  | Returns (a : A)
  | Panics (why : string).
Arguments Returns {A} a.
Arguments Panics {A} why.

Definition call (f : option (string → string)) (p : string) : outcome string :=
  match f with
  | Some g => Returns (g p)
  | None => Panics "invalid memory address or nil pointer dereference"
  end.

(** [toCanonical] and [toNative] of the specification are calls of the two
    variables after [init]. *)
Definition toCanonical (NFC NFD : string → string) (GOOS p : string) : outcome string :=
  call (normalize_var (init NFC NFD GOOS)) p.
Definition toNative (NFC NFD : string → string) (GOOS p : string) : outcome string :=
  call (denormalize_var (init NFC NFD GOOS)) p.

(** A valid canonical path: one leading ["/"], not followed by another, and
    no native separator. *)
Definition validCanonical (GOOS p : string) : bool :=
  String.eqb (path p) p
  && negb (strings.containsByte p (PathSeparator GOOS) && negb (Ascii.eqb (PathSeparator GOOS) "/")).


(* ===================================================================== *)
(** * The storage backend: [afero.Fs] *)
(* ===================================================================== *)

(** Go [error] values the endpoint can meet. [os.ErrNotExist] is also
    afero's [ErrFileNotFound]. *)
Inductive error : Type :=
  | ErrNotExist
  | ErrExist
  | ErrPermission
  | ErrReadOnlyHandle
  | ErrOther (msg : string).

#[global] Instance error_eq_dec : EqDecision error.
Proof. solve_decision. Defined.

(** [os.IsNotExist(e)]; [None] is the nil error. *)
Definition IsNotExist (e : option error) : bool :=
  match e with
  | Some ErrNotExist => true
  | _ => false
  end.

Module FileInfo.
(** [os.FileInfo], the two methods the endpoint reads. *)
Record t : Type := mk { Size : Z; IsDir : bool }.
End FileInfo.

(** An open [afero.File] handle, at offset 0. *)
Record File : Type := mkFile { fileName : string; readOnly : bool }.

(** A Go result pair [(v, err)] with exactly one of the two non-nil. *)
Definition errOf {A} (r : A + error) : option error :=
  match r with
  | inl _ => None
  | inr e => Some e
  end.

(** The [afero.Fs] interface over a type [S] of storage states, together
    with the package helpers [afero.WriteFile] and [afero.Walk] over the
    backend. [Walk] is observed through the paths handed to its callback,
    in call order (the callbacks of this package always return nil).
    [isMemMapFs] is the test
    [reflect.TypeOf(fs) == reflect.TypeOf(afero.NewMemMapFs())]. *)
Class Fs (S : Type) : Type := {
  Stat : S → string → FileInfo.t + error;
  MkdirAll : S → string → S * option error;
  Rename : S → string → string → S * option error;
  Create : S → string → S * (File + error);
  Open : S → string → File + error;
  Write : S → File → string → S * (Z * option error);
  WriteFile : S → string → string → S * option error;
  Walk : S → string → list string;
  isMemMapFs : bool
}.

(* ===================================================================== *)
(** * [path/filepath] on cleaned names *)
(* ===================================================================== *)

Module filepath.
Section WithSeparator.
Variable sep : ascii.

(** The proper prefixes of [s] that are followed by a separator, shortest
    first. *)
Fixpoint cuts (s : string) : list string :=
  match s with
  | EmptyString => []
  | String c s' =>
      (match s' with
       | String d _ => if Ascii.eqb d sep then [String c EmptyString] else []
       | EmptyString => []
       end) ++ map (String c) (cuts s')
  end.

(** The chain [Dir(s), Dir(Dir(s)), ...] of a cleaned rooted name,
    nearest first, ending with the root. *)
Definition ancestors (s : string) : list string :=
  match s with
  | String c (String d s'') =>
      if Ascii.eqb c sep
      then rev (String sep EmptyString ::
                (if Ascii.eqb d sep then [] else map (String c) (cuts (String d s''))))
      else rev (cuts s)
  | _ => []
  end.

(** [filepath.Dir] *)
Definition Dir (s : string) : string :=
  match ancestors s with
  | a :: _ => a
  | [] => match s with
          | String c EmptyString => if Ascii.eqb c sep then s else "."
          | _ => "."
          end
  end.

(** The last element of [s]: the bytes after the last separator. *)
Fixpoint Base (s : string) : string :=
  match s with
  | EmptyString => EmptyString
  | String c s' =>
      if strings.containsByte s' sep then Base s'
      else if Ascii.eqb c sep then s' else s
  end.

(** [filepath.Join(dir, name)] for a cleaned [dir] and a single
    element [name]. *)
Definition Join (dir name : string) : string :=
  match dir with
  | EmptyString => name
  | _ => if strings.HasSuffix dir (String sep EmptyString)
         then dir +:+ name
         else dir +:+ String sep name
  end.

(** The elements of a name: what stands between its separators. *)
Fixpoint elements (s : string) : list string :=
  match s with
  | EmptyString => [EmptyString]
  | String c s' =>
      if Ascii.eqb c sep then EmptyString :: elements s'
      else match elements s' with
           | e :: es => String c e :: es
           | [] => [String c EmptyString]
           end
  end.

(** An element that [filepath.Clean] keeps: not empty, not [.], not [..],
    and without a slash (which [Clean] rewrites where the separator is
    another byte). *)
Definition properElement (e : string) : bool :=
  negb (String.eqb e "") && negb (String.eqb e ".") && negb (String.eqb e "..")
  && negb (strings.containsByte e "/").

(** The rooted names that [filepath.Clean] answers as they are given: the
    separator alone, or the separator followed by proper elements with one
    separator between two of them and none at the end. [Join], [Dir] and
    [ancestors] above, and the in-memory backend below, are those of Go
    and of afero on such names; afero cleans every name it is given
    ([normalizePath]) before it looks at its table. *)
Definition cleaned (s : string) : bool :=
  match s with
  | String c rest =>
      Ascii.eqb c sep
      && (String.eqb rest "" || forallb properElement (elements rest))
  | EmptyString => false
  end.
End WithSeparator.
End filepath.

(* ===================================================================== *)
(** * The in-memory backend [afero.MemMapFs] and [afero.ReadOnlyFs] *)
(* ===================================================================== *)

Module mem.
(** [mem.FileData]: the directory flag and the bytes. *)
Record FileData : Type := mkData { dir : bool; data : string }.

Definition CreateDir : FileData := mkData true "".
Definition CreateFile : FileData := mkData false "".
(** [mem.InitializeDir] marks the entry as a directory. *)
Definition InitializeDir (d : FileData) : FileData := mkData true (data d).

#[global] Instance FileData_eq_dec : EqDecision FileData.
Proof. solve_decision. Defined.
End mem.

(** [MemMapFs] keeps one flat table from cleaned names to file data; a
    rename re-keys exactly one entry, it does not move the entries below
    it. Names are taken as they are given: cleaned and rooted
    ([filepath.cleaned]); afero cleans a name before every operation, so
    for other names the operations below are not those of afero, and the
    statements about this backend are made for cleaned names. The list of
    the children that afero keeps inside a directory entry is not part of
    the table: [readDirNames] reads it off the names of the table, which
    is what afero answers as long as the table was made by creations only
    ([built] below), and [Rename] and [RemoveAll] expect the parent of the
    entry in the table, as afero does. *)
Module MemMapFs.
Section WithSeparator.
Variable sep : ascii.

(** [registerWithParent] and [lockfreeMkdir]: make the parent a
    directory, creating it and the missing directories above it. *)
Fixpoint registerChain (m : gmap string mem.FileData) (chain : list string)
  : gmap string mem.FileData :=
  match chain with
  | [] => m
  | p :: rest =>
      match m !! p with
      | Some d => <[p := mem.InitializeDir d]> m
      | None => registerChain (<[p := mem.CreateDir]> m) rest
      end
  end.

Definition registerWithParent (m : gmap string mem.FileData) (name : string)
  : gmap string mem.FileData :=
  registerChain m (filepath.ancestors sep name).

(** [mem.FileInfo.Size] answers 42 for a directory. *)
Definition info (d : mem.FileData) : FileInfo.t :=
  FileInfo.mk (if mem.dir d then 42 else Z.of_nat (String.length (mem.data d)))
              (mem.dir d).

Definition Stat (m : gmap string mem.FileData) (name : string) : FileInfo.t + error :=
  match m !! name with
  | Some d => inl (info d)
  | None => inr ErrNotExist
  end.

Definition Mkdir (m : gmap string mem.FileData) (name : string)
  : gmap string mem.FileData * option error :=
  match m !! name with
  | Some _ => (m, Some ErrExist)
  | None => (registerWithParent (<[name := mem.CreateDir]> m) name, None)
  end.

Definition MkdirAll (m : gmap string mem.FileData) (name : string)
  : gmap string mem.FileData * option error :=
  match Mkdir m name with
  | (m', Some ErrExist) => (m', None)
  | r => r
  end.

Definition Rename (m : gmap string mem.FileData) (oldname newname : string)
  : gmap string mem.FileData * option error :=
  if String.eqb oldname newname then (m, None)
  else match m !! oldname with
       | Some d =>
           (registerWithParent (<[newname := d]> (delete oldname m)) newname, None)
       | None => (m, Some ErrNotExist)
       end.

Definition Create (m : gmap string mem.FileData) (name : string)
  : gmap string mem.FileData * (File + error) :=
  (registerWithParent (<[name := mem.CreateFile]> m) name, inl (mkFile name false)).

(** [Open] answers a read-only handle. *)
Definition Open (m : gmap string mem.FileData) (name : string) : File + error :=
  match m !! name with
  | Some _ => inl (mkFile name true)
  | None => inr ErrNotExist
  end.

(** [File.Write] at offset 0. *)
Definition Write (m : gmap string mem.FileData) (f : File) (b : string)
  : gmap string mem.FileData * (Z * option error) :=
  if readOnly f then (m, (0, Some ErrReadOnlyHandle))
  else match m !! fileName f with
       | Some d =>
           (<[fileName f :=
                mem.mkData (mem.dir d)
                  (b +:+ strings.drop (String.length b) (mem.data d))]> m,
            (Z.of_nat (String.length b), None))
       | None => (m, (Z.of_nat (String.length b), None))
       end.

(** [afero.WriteFile]: open with [O_WRONLY|O_CREATE|O_TRUNC], write,
    close. *)
Definition WriteFile (m : gmap string mem.FileData) (name b : string)
  : gmap string mem.FileData * option error :=
  match m !! name with
  | Some d => (<[name := mem.mkData (mem.dir d) b]> m, None)
  | None => (<[name := mem.mkData false b]>
               (registerWithParent (<[name := mem.CreateFile]> m) name), None)
  end.

(** [readDirNames]: the names registered under [dirname], sorted. *)
Definition readDirNames (m : gmap string mem.FileData) (dirname : string) : list string :=
  merge_sort (λ a b, Is_true (String.leb a b))
    (map (filepath.Base sep)
       (filter (λ k, filepath.Dir sep k = dirname ∧ k ≠ dirname)
               (map fst (map_to_list m)))).

(** [afero.walk]: pre-order, names in sorted order. The fuel bounds the
    nesting depth. *)
Fixpoint walk (fuel : nat) (m : gmap string mem.FileData) (p : string) (isDir : bool)
  : list string :=
  p :: match fuel with
       | O => []
       | S fuel' =>
           if isDir then
             flat_map (λ name,
                 let filename := filepath.Join sep p name in
                 match Stat m filename with
                 | inr _ => [filename]
                 | inl fi => walk fuel' m filename (FileInfo.IsDir fi)
                 end)
               (readDirNames m p)
           else []
       end.

Definition Walk (m : gmap string mem.FileData) (root : string) : list string :=
  match Stat m root with
  | inr _ => [root]
  | inl fi => walk (size m) m root (FileInfo.IsDir fi)
  end.
End WithSeparator.
End MemMapFs.

Definition memMapFs (sep : ascii) : Fs (gmap string mem.FileData) := {|
  Stat := MemMapFs.Stat;
  MkdirAll := MemMapFs.MkdirAll sep;
  Rename := MemMapFs.Rename sep;
  Create := MemMapFs.Create sep;
  Open := MemMapFs.Open;
  Write := MemMapFs.Write;
  WriteFile := MemMapFs.WriteFile sep;
  Walk := MemMapFs.Walk sep;
  isMemMapFs := true
|}.

(** [afero.ReadOnlyFs] over a source backend: reads pass through, every
    mutation answers [syscall.EPERM]. *)
Definition readOnlyFs {S : Type} (source : Fs S) : Fs S := {|
  Stat := @Stat S source;
  MkdirAll := λ s _, (s, Some ErrPermission);
  Rename := λ s _ _, (s, Some ErrPermission);
  Create := λ s _, (s, inr ErrPermission);
  Open := @Open S source;
  Write := λ s _ _, (s, (0, Some ErrPermission));
  WriteFile := λ s _ _, (s, Some ErrPermission);
  Walk := @Walk S source;
  isMemMapFs := false
|}.

(* ===================================================================== *)
(** * Events: [notify] and [common] *)
(* ===================================================================== *)

Module notify.
(** [notify.EventInfo]: the methods [Event()] ([uint32] mask) and
    [Path()]. *)
Record EventInfo : Type := mk { Event : Z; Path : string }.

(** The event constants of the library; their values depend on the
    platform. *)
Record Events : Type := mkEvents { Create : Z; Remove : Z; Write : Z; Rename : Z }.

Definition All (K : Events) : Z :=
  Z.lor (Z.lor (Z.lor (Create K) (Remove K)) (Write K)) (Rename K).

(** The values of the library's inotify build: [0x100000 << iota]. *)
Definition inotify : Events := mkEvents 0x100000 0x200000 0x400000 0x800000.

#[global] Instance EventInfo_eq_dec : EqDecision EventInfo.
Proof. solve_decision. Defined.
End notify.

Module common.
(** Modelled from the spec: the event types of the [sync/common] package,
    which is not under [src/]: "type: enum {Create, Write, Rename,
    Remove}". [EventNone] is the zero value of the type. The source names
    [EventCreate], [EventRename] and [EventRemove]. *)
Inductive EventType : Type :=
  | EventNone
  | EventCreate
  | EventWrite
  | EventRename
  | EventRemove.

(** [common.EventInfo], the fields the source sets. [PathSyncSource] is the
    back-reference to the endpoint, held here as its root path. *)
Record EventInfo : Type := mk {
  Time : string;
  Size : Z;
  Folder : bool;
  Path : string;
  Type_ : EventType;
  PathSyncSource : option string
}.

(** The zero value [common.EventInfo{}]. *)
Definition empty : EventInfo := mk "" 0 false "" EventNone None.

#[global] Instance EventType_eq_dec : EqDecision EventType.
Proof. solve_decision. Defined.
#[global] Instance EventInfo_eq_dec : EqDecision EventInfo.
Proof. solve_decision. Defined.
End common.

Module tree.
Inductive NodeType : Type := NodeType_UNKNOWN | NodeType_LEAF | NodeType_COLLECTION.

(** [tree.Node], the fields the endpoint reads. *)
Record Node : Type := mk { Path : string; Type_ : NodeType; Uuid : string }.

Definition IsLeaf (n : Node) : bool :=
  match Type_ n with
  | NodeType_LEAF => true
  | _ => false
  end.
End tree.

(** [FSClient]: the root path and the storage, held as its current state. *)
Record FSClient (S : Type) : Type := mkClient { RootPath : string; FS : S }.
Arguments mkClient {S} _ _.
Arguments RootPath {S} _.
Arguments FS {S} _.

(* ===================================================================== *)
(** * Raw-Event Translator *)
(* ===================================================================== *)

Section Translator.
Context {S : Type} {afs : Fs S}.
(** [runtime.GOOS]; [filepath.EvalSymlinks] and [filepath.VolumeName]. *)
Variable GOOS : string.
Variable EvalSymlinks : string → string + error.
Variable VolumeName : string → string.
(** The package variable [normalize], non-nil. *)
Variable normalize : string → string.
(** The event constants of [notify] and the reading of [now()]. *)
Variable K : notify.Events.
Variable now : string.
(** [common.IsIgnoredFile] *)
Variable IsIgnoredFile : string → bool.

Definition EventTypeAll : list Z := [notify.All K].
Definition EventTypePut : list Z := [notify.Create K; notify.Write K; notify.Rename K].
Definition EventTypeCreate : list Z := [notify.Create K].
Definition EventTypeWrite : list Z := [notify.Write K].
Definition EventTypeRename : list Z := [notify.Rename K].
Definition EventTypeDelete : list Z := [notify.Remove K].
Definition EventTypeGet : list Z := [].

(** [isEventType]: some listed event shares a bit with [event]. *)
Fixpoint isEventType (eventType : list Z) (event : Z) : bool :=
  match eventType with
  | [] => false
  | ev :: rest => if negb (Z.land event ev =? 0) then true else isEventType rest event
  end.

Definition CanonicalPath (p : string) : string :=
  if String.eqb GOOS "windows" then
    let p := strings.TrimLeft p "/\" in
    match EvalSymlinks p with
    | inr _ => p
    | inl p' =>
        if negb (String.eqb p' p) then
          let volume := VolumeName p' in
          if strings.HasSuffix volume ":"
          then strings.ToLower volume +:+ strings.TrimPrefix p' volume
          else p'
        else p
    end
  else p.

(** The path the translator stats. *)
Definition eventPathOf (c : FSClient S) (event : notify.EventInfo) : string :=
  strings.TrimPrefix (CanonicalPath (notify.Path event)) (RootPath c).

Definition notifyEventToEventInfo (c : FSClient S) (event : notify.EventInfo)
  : common.EventInfo * option error :=
  let eventPath := eventPathOf c event in
  let normalizedPath := normalize eventPath in
  if isEventType EventTypeCreate (notify.Event event)
     || isEventType EventTypeWrite (notify.Event event) then
    match Stat (FS c) eventPath with
    | inr e =>
        if IsNotExist (Some e) then (common.empty, None)
        else (common.empty, Some e)
    | inl i =>
        (common.mk now (FileInfo.Size i) (FileInfo.IsDir i) normalizedPath
                   common.EventCreate (Some (RootPath c)), None)
    end
  else if isEventType EventTypeRename (notify.Event event) then
    match Stat (FS c) eventPath with
    | inr e =>
        if IsNotExist (Some e) then
          (common.mk now 0 false normalizedPath common.EventRemove
                     (Some (RootPath c)), None)
        else (common.empty, Some e)
    | inl i =>
        (common.mk now (FileInfo.Size i) (FileInfo.IsDir i) normalizedPath
                   common.EventRename (Some (RootPath c)), None)
    end
  else if isEventType EventTypeDelete (notify.Event event) then
    (common.mk now 0 false normalizedPath common.EventRemove
               (Some (RootPath c)), None)
  else (common.empty, None).

(** What one turn of the forwarding loop of [Watch] sends. *)
Inductive forwarded : Type :=
  | ToErrorChan (e : error)
  | ToEventChan (ev : common.EventInfo)
  | Nothing.

(** The body of [for event := range out] in [Watch]. *)
Definition forward (c : FSClient S) (event : notify.EventInfo) : forwarded :=
  if IsIgnoredFile (notify.Path event) then Nothing
  else
    match notifyEventToEventInfo c event with
    | (_, Some eventError) => ToErrorChan eventError
    | (eventInfo, None) =>
        if decide (eventInfo ≠ common.empty) then ToEventChan eventInfo else Nothing
    end.
End Translator.

(* ===================================================================== *)
(** * Node CRUD: [CreateNode], [UpdateNode], [MoveNode], [GetWriterOn] *)
(* ===================================================================== *)

Section Crud.
Context {S : Type} {afs : Fs S}.
(** [os.PathSeparator] and the package variable [denormalize], non-nil. *)
Variable sep : ascii.
Variable denormalize : string → string.

Definition CreateNode (c : FSClient S) (node : tree.Node) (updateIfExists : bool)
  : S * option error :=
  if tree.IsLeaf node then
    (FS c, Some (ErrOther
       "This is a DataSyncTarget, use PutNode for leafs instead of CreateNode"))
  else
    let fPath := denormalize (tree.Path node) in
    let e := errOf (Stat (FS c) fPath) in
    if IsNotExist e then
      let '(s1, err) := MkdirAll (FS c) fPath in
      let s2 :=
        if negb (String.eqb (tree.Uuid node) "")
        then fst (WriteFile s1 (filepath.Join sep fPath ".__pydio") (tree.Uuid node))
        else s1 in
      (s2, err)
    else (FS c, None).

Definition UpdateNode (c : FSClient S) (node : tree.Node) : S * option error :=
  CreateNode c node true.

(** The callback of [afero.Walk] in [moveRecursively], folded over the
    walked paths: [(moves, indexes, i)]. *)
Definition collect (ws : list string) : gmap Z string * list Z * Z :=
  fold_left (λ '(moves, indexes, i) wPath,
               (<[i := wPath]> moves, indexes ++ [i], i + 1))
            ws (∅, [], 0).

(** One turn of [for key := range indexes]; [key] is the position. *)
Definition moveOne (moves : gmap Z string) (total : Z) (oldPath newPath : string)
    (s : S) (key : Z) : S :=
  let key := total - key in
  let wPath := default "" (moves !! key) in
  if (String.length wPath =? 0)%nat then s
  else fst (Rename s wPath (newPath +:+ strings.TrimPrefix wPath oldPath)).

Definition moveRecursively (c : FSClient S) (oldPath newPath : string)
  : S * option error :=
  let '(moves, indexes, _) := collect (Walk (FS c) oldPath) in
  let total := Z.of_nat (length indexes) in
  let s1 :=
    fold_left (moveOne moves total oldPath newPath)
              (map Z.of_nat (seq 0 (length indexes))) (FS c) in
  (fst (Rename s1 oldPath newPath), None).

Definition MoveNode (c : FSClient S) (oldPath newPath : string)
  : outcome (S * option error) :=
  let oldPath := denormalize oldPath in
  let newPath := denormalize newPath in
  match Stat (FS c) oldPath with
  | inr e =>
      if negb (IsNotExist (Some e))
      then Panics "invalid memory address or nil pointer dereference"
      else Returns (FS c, None)
  | inl stat =>
      if FileInfo.IsDir stat && isMemMapFs then
        let '(s1, _) := moveRecursively c oldPath newPath in
        Returns (s1, None)
      else Returns (Rename (FS c) oldPath newPath)
  end.

Definition GetWriterOn (c : FSClient S) (p : string) : S * (File + error) :=
  let p := denormalize p in
  let e := errOf (Stat (FS c) p) in
  if IsNotExist e then Create (FS c) p
  else (FS c, Open (FS c) p).
End Crud.

(* ===================================================================== *)
(** * Go channels *)
(* ===================================================================== *)

(** A channel value: what is buffered, the capacity, and whether it was
    closed. [len] and [cap] are Go's. *)
Record chan (T : Type) : Type := mkChan { buf : list T; cap : Z; closed : bool }.
Arguments mkChan {T} _ _ _.
Arguments buf {T} _.
Arguments cap {T} _.
Arguments closed {T} _.

Definition make {T : Type} (capacity : Z) : chan T := mkChan [] capacity false.
Definition len {T : Type} (c : chan T) : Z := Z.of_nat (length (buf c)).
Definition push {T : Type} (c : chan T) (v : T) : chan T :=
  mkChan (buf c ++ [v]) (cap c) (closed c).
Definition pop {T : Type} (c : chan T) : chan T :=
  mkChan (tail (buf c)) (cap c) (closed c).
Definition close {T : Type} (c : chan T) : chan T := mkChan (buf c) (cap c) true.

(** What one scheduling of a goroutine does: it moves on, it stays blocked,
    or it panics (a send on a closed channel, a close of a closed
    channel). *)
Inductive turn (St : Type) : Type :=
  | Next (s : St)
  | Blocked
  | Panic.
Arguments Next {St} s.
Arguments Blocked {St}.
Arguments Panic {St}.

(* ===================================================================== *)
(** * Growable Event Buffer: [PipeChan] *)
(* ===================================================================== *)

Module PipeChan.
Section WithCapacity.
(** The element type ([notify.EventInfo]) and the argument of
    [PipeChan]. *)
Context {A : Type}.
Variable capacity : Z.

(** The first goroutine, by the statement it is about to run. *)
Inductive splitter : Type :=
  | SMake                       (* currCh := make(chan, capacity) *)
  | SPushFirst                  (* channels <- currCh *)
  | SRange                      (* for elem := range inputCh *)
  | SGrow (elem : A)            (* if len(currCh) >= cap(currCh)/2 *)
  | SPushGrown (elem : A)       (* channels <- currCh *)
  | SShrinkLen (elem : A)       (* if len(currCh) >= capacity *)
  | SShrinkCap (elem : A)       (*    && len(currCh) <= cap(currCh)/4 *)
  | SPushShrunk (elem : A)      (* channels <- currCh *)
  | SSend (elem : A)            (* currCh <- elem *)
  | SCloseCurr                  (* close(currCh) *)
  | SCloseChannels              (* close(channels) *)
  | SDone.

(** The second goroutine. *)
Inductive drainer : Type :=
  | DRecv                       (* currCh, ok := <-channels *)
  | DRange (r : nat)            (* for v := range currCh *)
  | DSend (r : nat) (v : A)     (* outputCh <- v *)
  | DCloseOut                   (* close(outputCh) *)
  | DDone.

(** The channels made by the first goroutine live in [segs], in order of
    creation; [channels] carries references into it, and [currCh] of the
    first goroutine and [r] of the second are references too, so a
    channel that both goroutines hold is one channel. *)
Record state : Type := mkState {
  toSend : list A;              (* what the sender has yet to send *)
  inputCh : chan A;
  segs : list (chan A);
  channels : chan nat;
  currCh : nat;
  sp : splitter;
  dr : drainer;
  outputCh : chan A;
  received : list A             (* what the reader has read, in order *)
}.

Definition init (input : list A) : state :=
  mkState input (make capacity) [] (make 1000) 0%nat SMake DRecv (make capacity) [].

(** The sender: sends the next event on [inputCh] while there is room,
    closes [inputCh] after the last one. *)
Definition sender (s : state) : turn state :=
  match toSend s with
  | e :: rest =>
      if closed (inputCh s) then Panic
      else if len (inputCh s) <? cap (inputCh s)
      then Next (mkState rest (push (inputCh s) e) (segs s) (channels s)
                         (currCh s) (sp s) (dr s) (outputCh s) (received s))
      else Blocked
  | [] =>
      if closed (inputCh s) then Blocked
      else Next (mkState [] (close (inputCh s)) (segs s) (channels s)
                         (currCh s) (sp s) (dr s) (outputCh s) (received s))
  end.

(** [channels <- currCh], then go on at [k]. *)
Definition pushCurr (s : state) (k : splitter) : turn state :=
  if closed (channels s) then Panic
  else if len (channels s) <? cap (channels s)
  then Next (mkState (toSend s) (inputCh s) (segs s) (push (channels s) (currCh s))
                     (currCh s) k (dr s) (outputCh s) (received s))
  else Blocked.

(** [close(currCh); currCh = make(chan, c)], then go on at [k]. *)
Definition replaceCurr (s : state) (ch : chan A) (c : Z) (k : splitter) : turn state :=
  if closed ch then Panic
  else Next (mkState (toSend s) (inputCh s)
                     (<[currCh s := close ch]> (segs s) ++ [make c])
                     (channels s) (length (segs s)) k (dr s) (outputCh s) (received s)).

Definition goto (s : state) (k : splitter) : state :=
  mkState (toSend s) (inputCh s) (segs s) (channels s) (currCh s) k (dr s)
          (outputCh s) (received s).

Definition splitterTurn (s : state) : turn state :=
  match sp s with
  | SMake =>
      Next (mkState (toSend s) (inputCh s) (segs s ++ [make capacity]) (channels s)
                    (length (segs s)) SPushFirst (dr s) (outputCh s) (received s))
  | SPushFirst => pushCurr s SRange
  | SRange =>
      match buf (inputCh s) with
      | elem :: _ =>
          Next (mkState (toSend s) (pop (inputCh s)) (segs s) (channels s)
                        (currCh s) (SGrow elem) (dr s) (outputCh s) (received s))
      | [] => if closed (inputCh s) then Next (goto s SCloseCurr) else Blocked
      end
  | SGrow elem =>
      match segs s !! currCh s with
      | Some ch =>
          if len ch >=? Z.quot (cap ch) 2
          then replaceCurr s ch (cap ch * 2) (SPushGrown elem)
          else Next (goto s (SShrinkLen elem))
      | None => Panic
      end
  | SPushGrown elem => pushCurr s (SShrinkLen elem)
  | SShrinkLen elem =>
      match segs s !! currCh s with
      | Some ch =>
          if len ch >=? capacity
          then Next (goto s (SShrinkCap elem))
          else Next (goto s (SSend elem))
      | None => Panic
      end
  | SShrinkCap elem =>
      match segs s !! currCh s with
      | Some ch =>
          if len ch <=? Z.quot (cap ch) 4
          then replaceCurr s ch (Z.quot (cap ch) 2) (SPushShrunk elem)
          else Next (goto s (SSend elem))
      | None => Panic
      end
  | SPushShrunk elem => pushCurr s (SSend elem)
  | SSend elem =>
      match segs s !! currCh s with
      | Some ch =>
          if closed ch then Panic
          else if len ch <? cap ch
          then Next (mkState (toSend s) (inputCh s)
                             (<[currCh s := push ch elem]> (segs s)) (channels s)
                             (currCh s) SRange (dr s) (outputCh s) (received s))
          else Blocked
      | None => Panic
      end
  | SCloseCurr =>
      match segs s !! currCh s with
      | Some ch =>
          if closed ch then Panic
          else Next (mkState (toSend s) (inputCh s)
                             (<[currCh s := close ch]> (segs s)) (channels s)
                             (currCh s) SCloseChannels (dr s) (outputCh s) (received s))
      | None => Panic
      end
  | SCloseChannels =>
      if closed (channels s) then Panic
      else Next (mkState (toSend s) (inputCh s) (segs s) (close (channels s))
                         (currCh s) SDone (dr s) (outputCh s) (received s))
  | SDone => Blocked
  end.

Definition drainerAt (s : state) (k : drainer) : state :=
  mkState (toSend s) (inputCh s) (segs s) (channels s) (currCh s) (sp s) k
          (outputCh s) (received s).

Definition drainerTurn (s : state) : turn state :=
  match dr s with
  | DRecv =>
      match buf (channels s) with
      | r :: _ =>
          Next (mkState (toSend s) (inputCh s) (segs s) (pop (channels s))
                        (currCh s) (sp s) (DRange r) (outputCh s) (received s))
      | [] => if closed (channels s) then Next (drainerAt s DCloseOut) else Blocked
      end
  | DRange r =>
      match segs s !! r with
      | Some ch =>
          match buf ch with
          | v :: _ =>
              Next (mkState (toSend s) (inputCh s) (<[r := pop ch]> (segs s))
                            (channels s) (currCh s) (sp s) (DSend r v)
                            (outputCh s) (received s))
          | [] => if closed ch then Next (drainerAt s DRecv) else Blocked
          end
      | None => Panic
      end
  | DSend r v =>
      if closed (outputCh s) then Panic
      else if len (outputCh s) <? cap (outputCh s)
      then Next (mkState (toSend s) (inputCh s) (segs s) (channels s) (currCh s)
                         (sp s) (DRange r) (push (outputCh s) v) (received s))
      else Blocked
  | DCloseOut =>
      if closed (outputCh s) then Panic
      else Next (mkState (toSend s) (inputCh s) (segs s) (channels s) (currCh s)
                         (sp s) DDone (close (outputCh s)) (received s))
  | DDone => Blocked
  end.

(** The reader of [outputCh], at its own pace. *)
Definition reader (s : state) : turn state :=
  match buf (outputCh s) with
  | v :: _ =>
      Next (mkState (toSend s) (inputCh s) (segs s) (channels s) (currCh s)
                    (sp s) (dr s) (pop (outputCh s)) (received s ++ [v]))
  | [] => Blocked
  end.

Inductive actor : Type := Sender | Splitter | Drainer | Reader.

Definition step (who : actor) (s : state) : turn state :=
  match who with
  | Sender => sender s
  | Splitter => splitterTurn s
  | Drainer => drainerTurn s
  | Reader => reader s
  end.

(** The states of the executions from [init input], under every
    schedule. *)
Inductive reachable (input : list A) : state → Prop :=
  | reach_init : reachable input (init input)
  | reach_step s who s' :
      reachable input s → step who s = Next s' → reachable input s'.

(** A schedule is a list of actors; a blocked actor is skipped. *)
Fixpoint run (schedule : list actor) (s : state) : option state :=
  match schedule with
  | [] => Some s
  | who :: rest =>
      match step who s with
      | Next s' => run rest s'
      | Blocked => run rest s
      | Panic => None
      end
  end.

(** Everything accepted and not yet read, oldest first. *)
Definition heldByDrainer (d : drainer) : list A :=
  match d with
  | DSend _ v => [v]
  | _ => []
  end.

Definition heldBySplitter (p : splitter) : list A :=
  match p with
  | SGrow e | SPushGrown e | SShrinkLen e | SShrinkCap e | SPushShrunk e | SSend e => [e]
  | _ => []
  end.

Definition inflight (s : state) : list A :=
  buf (outputCh s) ++ heldByDrainer (dr s) ++ concat (map buf (segs s))
    ++ heldBySplitter (sp s) ++ buf (inputCh s) ++ toSend s.

(** The reader has seen [outputCh] closed and drained. *)
Definition finished (s : state) : Prop :=
  closed (outputCh s) = true ∧ buf (outputCh s) = [].
End WithCapacity.
End PipeChan.

(* ===================================================================== *)
(** * Watch Lifecycle Manager: the two goroutines of [Watch] *)
(* ===================================================================== *)

Module Watch.
Section WithClient.
Context {S : Type} {afs : Fs S}.
(** The translator of this session: the loop body [forward] with its
    platform arguments applied. *)
Variable translate : FSClient S → notify.EventInfo → forwarded.
Variable c : FSClient S.

(** The goroutine started by [go func() { <-doneChan ... }]. *)
Inductive closer : Type :=
  | CWait                       (* <-doneChan *)
  | CStop                       (* notify.Stop(in) *)
  | CCloseEvents                (* close(eventChan) *)
  | CCloseErrors                (* close(errorChan) *)
  | CDone.

(** The goroutine started by [go func() { for event := range out ... }].
    [eventChan] and [errorChan] are unbuffered: a send waits for the
    reader. *)
Inductive forwarder : Type :=
  | FRange                              (* for event := range out *)
  | FSendError (e : error)              (* errorChan <- eventError *)
  | FSendEvent (ev : common.EventInfo). (* eventChan <- eventInfo *)

(** A session on a backend that is not in memory, after [notify.Watch]
    answered nil. The pipe of [PipeChan(1000)] is written by the
    notification source and read through [out]; [piped] is what it holds.
    [Watch] never closes [in], so [out] is never closed. *)
Record session : Type := mkSession {
  source : list notify.EventInfo;   (* what the source has yet to notify *)
  subscribed : bool;                (* registered and not stopped *)
  piped : list notify.EventInfo;
  cl : closer;
  fw : forwarder;
  eventChanClosed : bool;
  errorChanClosed : bool;
  events : list common.EventInfo;   (* read from eventChan *)
  errors : list error               (* read from errorChan *)
}.

Definition start (raw : list notify.EventInfo) : session :=
  mkSession raw true [] CWait FRange false false [] [].

(** What [Watch] hands back: on the in-memory backend the three channels
    and no goroutine; the error of [notify.Watch]; or a running session.
    [registration] is the answer of [notify.Watch], [raw] what the source
    will notify. *)
Inductive opened : Type :=
  | Idle
  | Failed (e : error)
  | Running (s : session).

Definition Watch (registration : option error) (raw : list notify.EventInfo) : opened :=
  if isMemMapFs then Idle
  else match registration with
       | Some e => Failed e
       | None => Running (start raw)
       end.

Inductive actor : Type :=
  | Source        (* the notification source delivers one event *)
  | Owner         (* the owner of the session signals doneChan *)
  | Closer
  | Forwarder
  | Reader.       (* the consumer of eventChan and errorChan *)

Definition sourceTurn (s : session) : turn session :=
  match source s with
  | e :: rest =>
      if subscribed s
      then Next (mkSession rest true (piped s ++ [e]) (cl s) (fw s)
                           (eventChanClosed s) (errorChanClosed s) (events s) (errors s))
      else Blocked
  | [] => Blocked
  end.

Definition closerAt (s : session) (k : closer) : session :=
  mkSession (source s) (subscribed s) (piped s) k (fw s)
            (eventChanClosed s) (errorChanClosed s) (events s) (errors s).

(** The signal on [doneChan] is taken by the waiting [<-doneChan]. *)
Definition ownerTurn (s : session) : turn session :=
  match cl s with
  | CWait => Next (closerAt s CStop)
  | _ => Blocked
  end.

Definition closerTurn (s : session) : turn session :=
  match cl s with
  | CWait => Blocked
  | CStop =>
      Next (mkSession (source s) false (piped s) CCloseEvents (fw s)
                      (eventChanClosed s) (errorChanClosed s) (events s) (errors s))
  | CCloseEvents =>
      if eventChanClosed s then Panic
      else Next (mkSession (source s) (subscribed s) (piped s) CCloseErrors (fw s)
                           true (errorChanClosed s) (events s) (errors s))
  | CCloseErrors =>
      if errorChanClosed s then Panic
      else Next (mkSession (source s) (subscribed s) (piped s) CDone (fw s)
                           (eventChanClosed s) true (events s) (errors s))
  | CDone => Blocked
  end.

Definition forwarderAt (s : session) (rest : list notify.EventInfo) (k : forwarder)
  : session :=
  mkSession (source s) (subscribed s) rest (cl s) k
            (eventChanClosed s) (errorChanClosed s) (events s) (errors s).

(** A send on a closed channel panics, also when the channel is closed
    while the send waits. *)
Definition forwarderTurn (s : session) : turn session :=
  match fw s with
  | FRange =>
      match piped s with
      | event :: rest =>
          match translate c event with
          | ToErrorChan e => Next (forwarderAt s rest (FSendError e))
          | ToEventChan ev => Next (forwarderAt s rest (FSendEvent ev))
          | Nothing => Next (forwarderAt s rest FRange)
          end
      | [] => Blocked
      end
  | FSendError _ => if errorChanClosed s then Panic else Blocked
  | FSendEvent _ => if eventChanClosed s then Panic else Blocked
  end.

Definition readerTurn (s : session) : turn session :=
  match fw s with
  | FSendError e =>
      if errorChanClosed s then Blocked
      else Next (mkSession (source s) (subscribed s) (piped s) (cl s) FRange
                           (eventChanClosed s) (errorChanClosed s)
                           (events s) (errors s ++ [e]))
  | FSendEvent ev =>
      if eventChanClosed s then Blocked
      else Next (mkSession (source s) (subscribed s) (piped s) (cl s) FRange
                           (eventChanClosed s) (errorChanClosed s)
                           (events s ++ [ev]) (errors s))
  | FRange => Blocked
  end.

Definition step (who : actor) (s : session) : turn session :=
  match who with
  | Source => sourceTurn s
  | Owner => ownerTurn s
  | Closer => closerTurn s
  | Forwarder => forwarderTurn s
  | Reader => readerTurn s
  end.

(** Run a schedule; a blocked actor is skipped, a panic ends the run. *)
Fixpoint run (schedule : list actor) (s : session) : turn session :=
  match schedule with
  | [] => Next s
  | who :: rest =>
      match step who s with
      | Next s' => run rest s'
      | Blocked => run rest s
      | Panic => Panic
      end
  end.
End WithClient.
End Watch.

(* ===================================================================== *)
(** * Fixtures: a Windows endpoint on the in-memory backend *)
(* ===================================================================== *)

Module Fixture.
(** What [init] installs on Windows. *)
Definition normalizeWin (p : string) : string := strings.Replace (path p) "\" "/".
Definition denormalizeWin (p : string) : string := strings.Replace (path p) "/" "\".

(** No symbolic links, no volume names. *)
Definition evalSymlinks (p : string) : string + error := inl p.
Definition volumeName (_ : string) : string := "".
Definition isIgnoredFile (p : string) : bool := strings.HasSuffix p ".__pydio".
Definition clock : string := "2006-01-02T15:04:05.000Z".

(** The event bits of [notify] under inotify and ReadDirectoryChangesW. *)
Definition bits : notify.Events := notify.inotify.

(** [\docs\readme.txt] holds "v2"; [\a] holds [b.txt] and [z\f]. *)
Definition storage : gmap string mem.FileData :=
  let m0 : gmap string mem.FileData := {[ "\" := mem.CreateDir ]} in
  let m1 := fst (MemMapFs.MkdirAll "\" m0 "\docs") in
  let m2 := fst (MemMapFs.WriteFile "\" m1 "\docs\readme.txt" "v2") in
  let m3 := fst (MemMapFs.MkdirAll "\" m2 "\a\z") in
  let m4 := fst (MemMapFs.WriteFile "\" m3 "\a\z\f" "hello") in
  fst (MemMapFs.WriteFile "\" m4 "\a\b.txt" "x").

Definition client : FSClient (gmap string mem.FileData) := mkClient "c:\root" storage.

Definition translator := notifyEventToEventInfo (afs := memMapFs "\")
  win evalSymlinks volumeName normalizeWin bits clock.
Definition loopBody := forward (afs := memMapFs "\")
  win evalSymlinks volumeName normalizeWin bits clock isIgnoredFile.

Definition writeReadme : notify.EventInfo :=
  notify.mk (notify.Write bits) "c:\root\docs\readme.txt".
Definition renameGone : notify.EventInfo :=
  notify.mk (notify.Rename bits) "c:\root\docs\gone.txt".
Definition createAndRenameGone : notify.EventInfo :=
  notify.mk (Z.lor (notify.Create bits) (notify.Rename bits)) "c:\root\docs\gone.txt".
Definition createGone : notify.EventInfo :=
  notify.mk (notify.Create bits) "c:\root\docs\gone.txt".
Definition removeReadme : notify.EventInfo :=
  notify.mk (notify.Remove bits) "c:\root\docs\readme.txt".

(** The same storage behind a backend that is not [MemMapFs], as [Watch]
    needs it to start its goroutines. *)
Definition diskLoopBody := forward (afs := readOnlyFs (memMapFs "\"))
  win evalSymlinks volumeName normalizeWin bits clock isIgnoredFile.

(** The source notifies; the owner signals done; the closer stops the
    source and closes both channels; then the forwarder takes the event
    that the pipe still holds and sends it. *)
Definition lateSend : list Watch.actor :=
  [Watch.Source; Watch.Owner; Watch.Closer; Watch.Closer; Watch.Closer;
   Watch.Forwarder; Watch.Forwarder].

(** The forwarder is waiting in its send when the closer closes. *)
Definition closeUnderSend : list Watch.actor :=
  [Watch.Source; Watch.Forwarder; Watch.Owner; Watch.Closer; Watch.Closer;
   Watch.Forwarder].

(** Five notifications sent in a row. *)
Definition burst : list notify.EventInfo :=
  [createGone; writeReadme; renameGone; removeReadme; writeReadme].

Definition collection (p uuid : string) : tree.Node :=
  tree.mk p tree.NodeType_COLLECTION uuid.
Definition leaf (p : string) : tree.Node := tree.mk p tree.NodeType_LEAF "".
End Fixture.


(* ===================================================================== *)
(** * Predicates on the in-memory table used in the statements *)
(* ===================================================================== *)

(** [k] is present and is a directory. *)
Definition isDirIn (m : gmap string mem.FileData) (k : string) : bool :=
  match m !! k with
  | Some d => mem.dir d
  | None => false
  end.

(** The tables that the backend makes from its start, the root alone, by
    creating directories and writing files under cleaned names. In such a
    table every entry but the root has its parent, and the children that
    afero lists for a directory are the entries right below it. *)
Inductive built (sep : ascii) : gmap string mem.FileData → Prop :=
  | built_root : built sep {[ String sep EmptyString := mem.CreateDir ]}
  | built_MkdirAll m p :
      built sep m → filepath.cleaned sep p = true →
      built sep (fst (MemMapFs.MkdirAll sep m p))
  | built_WriteFile m p b :
      built sep m → filepath.cleaned sep p = true →
      built sep (fst (MemMapFs.WriteFile sep m p b)).

(** Along a chain of ancestors, nearest first: above the nearest one that
    is present, all are directories (as in every table built by the
    backend's own operations). *)
Fixpoint chainClosed (m : gmap string mem.FileData) (chain : list string) : bool :=
  match chain with
  | [] => true
  | a :: rest =>
      match m !! a with
      | Some _ => forallb (isDirIn m) rest
      | None => chainClosed m rest
      end
  end.




(* ===================================================================== *)
(** * The invariant and the budget of [PipeChan] *)
(* ===================================================================== *)

Module PipeChanSpec.
Import PipeChan.
Section WithCapacity.
Context {A : Type}.
Variable capacity : Z.
Variable input : list A.

(** The first goroutine has made [currCh] and not yet sent it on
    [channels]. *)
Definition pushing (p : splitter (A := A)) : bool :=
  match p with
  | SPushFirst | SPushGrown _ | SPushShrunk _ => true
  | _ => false
  end.

Definition pushed (s : state (A := A)) : nat :=
  (length (segs s) - (if pushing (sp s) then 1 else 0))%nat.

(** The channel the second goroutine is ranging over. *)
Definition held (d : drainer (A := A)) : option nat :=
  match d with
  | DRange r | DSend r _ => Some r
  | _ => None
  end.

Definition closing (p : splitter (A := A)) : bool :=
  match p with
  | SCloseChannels | SDone => true
  | _ => false
  end.

(** Capacities, the current channel, and the closed flags. *)
Record control (s : state (A := A)) : Prop := {
  c_input : cap (inputCh s) = capacity;
  c_output : cap (outputCh s) = capacity;
  c_channels : cap (channels s) = 1000;
  c_curr : match sp s with
           | SMake => segs s = []
           | _ => S (currCh s) = length (segs s)
           end;
  c_sent : closed (inputCh s) = true → toSend s = [];
  c_range_over : match sp s with
                 | SCloseCurr | SCloseChannels | SDone =>
                     closed (inputCh s) = true ∧ buf (inputCh s) = []
                 | _ => True
                 end;
  c_channels_closed : closed (channels s) = true ↔ sp s = SDone;
  c_drained : match dr s with
              | DCloseOut | DDone =>
                  closed (channels s) = true ∧ buf (channels s) = []
              | _ => True
              end;
  c_output_closed : closed (outputCh s) = true ↔ dr s = DDone
}.

(** The channels made so far: [channels] holds the references [k, k+1,
    ...] up to the last one sent, the second goroutine ranges over the one
    before [k], every channel before that one is empty and closed, every
    channel but the current one is closed, and the current one has the room that the
    statement at hand was promised. *)
Record segments (s : state (A := A)) : Prop := {
  g_queue : ∃ k : nat,
      buf (channels s) = seq k (length (buf (channels s)))
      ∧ (k + length (buf (channels s)))%nat = pushed s
      ∧ match held (dr s) with
        | Some r => S r = k
        | None => True
        end
      ∧ ∀ i ch, segs s !! i = Some ch →
                (i + (if held (dr s) is Some _ then 1 else 0) < k)%nat →
                buf ch = [] ∧ closed ch = true;
  g_each : ∀ i ch, segs s !! i = Some ch →
      1 ≤ cap ch
      ∧ (closed ch = true ↔ (S i < length (segs s))%nat ∨ closing (sp s) = true);
  g_room : ∀ ch, segs s !! currCh s = Some ch →
      match sp s with
      | SShrinkLen _ => len ch < Z.quot (cap ch) 2
      | SShrinkCap _ => len ch < Z.quot (cap ch) 2 ∧ capacity < Z.quot (cap ch) 2
      | SSend _ => len ch < cap ch
      | SPushGrown _ => buf ch = [] ∧ 2 ≤ cap ch
      | SPushShrunk _ => buf ch = []
      | _ => True
      end
}.

(** Nothing is lost, doubled or reordered. *)
Definition conserved (s : state (A := A)) : Prop :=
  received s ++ inflight s = input.

Definition invariant (s : state (A := A)) : Prop :=
  control s ∧ segments s ∧ conserved s.

(** A budget of turns: every turn that moves on uses some of it. *)
Definition splitterBudget (p : splitter (A := A)) : nat :=
  match p with
  | SMake => 7
  | SPushFirst => 6
  | SRange => 3
  | SGrow _ => 16
  | SPushGrown _ => 15
  | SShrinkLen _ => 12
  | SShrinkCap _ => 11
  | SPushShrunk _ => 10
  | SSend _ => 7
  | SCloseCurr => 2
  | SCloseChannels => 1
  | SDone => 0
  end.

Definition drainerBudget (d : drainer (A := A)) : nat :=
  match d with
  | DRecv => 2
  | DRange _ => 3
  | DSend _ _ => 5
  | DCloseOut => 1
  | DDone => 0
  end.

Definition budget (s : state (A := A)) : nat :=
  (15 * length (toSend s) + 14 * length (buf (inputCh s))
   + (if closed (inputCh s) then 0 else 1)
   + splitterBudget (sp s)
   + 3 * length (concat (map buf (segs s)))
   + 2 * length (buf (channels s))
   + drainerBudget (dr s)
   + length (buf (outputCh s)))%nat.
End WithCapacity.
End PipeChanSpec.

(* ===================================================================== *)
(** * The rest of the endpoint: [DeleteNode], [GetReaderOn], the node
      identifiers and [LoadNode] *)
(* ===================================================================== *)

(** The methods of [afero.Fs] and the helper [afero.ReadFile] that the
    functions below call. [OpenFile] is only called with [os.O_RDONLY]. *)
Class FsFiles (S : Type) : Type := {
  RemoveAll : S → string → S * option error;
  OpenFile : S → string → File + error;
  ReadFile : S → string → string + error
}.

(** [MemMapFs.RemoveAll] deletes every entry whose name has the given name
    as a string prefix. As the rest of the in-memory backend, this is
    afero's on cleaned names. *)
Definition memMapFiles : FsFiles (gmap string mem.FileData) := {|
  RemoveAll := λ m name,
    (filter (λ kv, strings.HasPrefix kv.1 name = false) m, None);
  OpenFile := MemMapFs.Open;
  ReadFile := λ m name,
    match m !! name with
    | Some d => inl (mem.data d)
    | None => inr ErrNotExist
    end
|}.

(** A backend whose [Stat] is refused, as [os.Stat] is under a directory
    that may not be searched; the rest is the source's. *)
Definition deniedFs {S : Type} (source : Fs S) : Fs S := {|
  Stat := λ _ _, inr ErrPermission;
  MkdirAll := @MkdirAll S source;
  Rename := @Rename S source;
  Create := @Create S source;
  Open := @Open S source;
  Write := @Write S source;
  WriteFile := @WriteFile S source;
  Walk := @Walk S source;
  isMemMapFs := false
|}.

(** What [LoadNode] fills in of a [tree.Node]: the fields of [tree.Node]
    above, [Etag], and the stat that [MTime], [Size] and [Mode] are copied
    from, [None] when no stat was made. *)
Record loaded : Type := mkLoaded {
  node : tree.Node;
  Etag : string;
  info : option FileInfo.t
}.

Section Identity.
Context {S : Type} {afs : Fs S} {files : FsFiles S}.
(** [os.PathSeparator], the package variable [denormalize], [md5] followed
    by [%x], and the identifier that [uuid.NewV4] draws. *)
Variable sep : ascii.
Variable denormalize : string → string.
Variable md5hex : string → string.
Variable newV4 : string.

Definition DeleteNode (c : FSClient S) (p : string) : S * option error :=
  let e := errOf (Stat (FS c) (denormalize p)) in
  if negb (IsNotExist e) then RemoveAll (FS c) (denormalize p)
  else (FS c, None).

Definition GetReaderOn (c : FSClient S) (p : string) : File + error :=
  Open (FS c) (denormalize p).

(** [readOrCreateFolderId]: the content of the marker file, or a new
    identifier written to it. When [OpenFile] fails for another reason than
    not-found, [uidFile] is nil and [uidFile.Close()] panics. *)
Definition readOrCreateFolderId (c : FSClient S) (p : string)
  : outcome (S * (string * option error)) :=
  match OpenFile (FS c) (filepath.Join sep p ".__pydio") with
  | inr uidErr =>
      if IsNotExist (Some uidErr) then
        let uid := newV4 in
        match WriteFile (FS c) (filepath.Join sep p ".__pydio") uid with
        | (s1, Some we) => Returns (s1, ("", Some we))
        | (s1, None) => Returns (s1, (uid, None))
        end
      else Panics "invalid memory address or nil pointer dereference"
  | inl uidFile =>
      match ReadFile (FS c) (filepath.Join sep p ".__pydio") with
      | inr re => Returns (FS c, ("", Some re))
      | inl content => Returns (FS c, (content, None))
      end
  end.

(** [getFileHash]: the digest of all the bytes of the file. *)
Definition getFileHash (c : FSClient S) (p : string) : string * option error :=
  match Open (FS c) p with
  | inr err => ("", Some err)
  | inl f =>
      match ReadFile (FS c) (fileName f) with
      | inr err => ("", Some err)
      | inl content => (md5hex content, None)
      end
  end.

Definition getNodeIdentifier (c : FSClient S) (p : string) (leaf : bool)
  : outcome (S * (string * option error)) :=
  if leaf then Returns (FS c, getFileHash c p)
  else readOrCreateFolderId c p.
(** [LoadNode(path, leaf...)]: the stat is made only when no [leaf] is
    passed. *)
Definition LoadNode (c : FSClient S) (p : string) (leaf : list bool)
  : outcome (S * (option loaded * option error)) :=
  let denormalizedPath := denormalize p in
  match (match leaf with
         | isLeaf :: _ => inl (isLeaf, None)
         | [] =>
             match Stat (FS c) denormalizedPath with
             | inr eStat => inr eStat
             | inl stat => inl (negb (FileInfo.IsDir stat), Some stat)
             end
         end) with
  | inr eStat => Returns (FS c, (None, Some eStat))
  | inl (isLeaf, stat) =>
      match getNodeIdentifier c denormalizedPath isLeaf with
      | Panics why => Panics why
      | Returns (s1, (_, Some err)) => Returns (s1, (None, Some err))
      | Returns (s1, (hash, None)) =>
          Returns (s1,
                   (Some (if isLeaf
                          then mkLoaded (tree.mk p tree.NodeType_LEAF "") hash stat
                          else mkLoaded (tree.mk p tree.NodeType_COLLECTION hash) "" stat),
                    None))
      end
  end.
End Identity.

(* ===================================================================== *)
(** * What a session of [Watch] has forwarded *)
(* ===================================================================== *)

Module WatchSpec.
Import Watch.
Section WithClient.
Context {S : Type}.
Variable translate : FSClient S → notify.EventInfo → forwarded.
Variable c : FSClient S.

(** What the loop sends on [eventChan] and on [errorChan] for the
    notifications it takes, in order. *)
Definition eventsOf (taken : list notify.EventInfo) : list common.EventInfo :=
  omap (λ event, match translate c event with
                 | ToEventChan ev => Some ev
                 | _ => None
                 end) taken.

Definition errorsOf (taken : list notify.EventInfo) : list error :=
  omap (λ event, match translate c event with
                 | ToErrorChan e => Some e
                 | _ => None
                 end) taken.

(** The value the loop is waiting to send. *)
Definition sendingEvent (f : forwarder) : list common.EventInfo :=
  match f with
  | FSendEvent ev => [ev]
  | _ => []
  end.

Definition sendingError (f : forwarder) : list error :=
  match f with
  | FSendError e => [e]
  | _ => []
  end.

(** A session that nobody has asked to end, with [taken] the notifications
    that the loop has taken out of the pipe. *)
Definition undisturbed (raw taken : list notify.EventInfo) (s : session) : Prop :=
  raw = taken ++ piped s ++ source s
  ∧ subscribed s = true
  ∧ cl s = CWait
  ∧ eventChanClosed s = false
  ∧ errorChanClosed s = false
  ∧ events s ++ sendingEvent (fw s) = eventsOf taken
  ∧ errors s ++ sendingError (fw s) = errorsOf taken.

(** A session that was stopped while the pipe was empty and the loop was
    waiting for the next notification. *)
Definition quiet (s : session) : Prop :=
  subscribed s = false
  ∧ piped s = []
  ∧ fw s = FRange
  ∧ match cl s with
    | CWait | CStop => False
    | CCloseEvents => eventChanClosed s = false ∧ errorChanClosed s = false
    | CCloseErrors => errorChanClosed s = false
    | CDone => True
    end.

(** One round of the source, the loop and the consumer for every
    notification. *)
Definition roundRobin (raw : list notify.EventInfo) : list actor :=
  flat_map (λ _, [Source; Forwarder; Reader]) raw.
End WithClient.
End WatchSpec.
(* ===================================================================== *)
(** * Properties of the Path Normalizer *)
(* ===================================================================== *)

Lemma init_windows NFC NFD :
  init NFC NFD win
  = Normalizer (Some Fixture.normalizeWin) (Some Fixture.denormalizeWin).
Proof. reflexivity. Qed.

Lemma toCanonical_empty_windows NFC NFD : toCanonical NFC NFD win "" = Returns "/".
Proof. reflexivity. Qed.

Lemma toCanonical_empty_darwin NFC NFD :
  NFC "/" = "/" → toCanonical NFC NFD macOS "" = Returns "/".
Proof.
  intros H. change (toCanonical NFC NFD macOS "") with (Returns (NFC "/")).
  by rewrite H.
Qed.

(** C5. [toCanonical] and [toNative] are not total and not inverse of each
    other: on Windows the canonical path ["/a/b"] goes to the native
    ["\a\b"], and that comes back as ["//a/b"], because the closure [path]
    trims only ["/"] before it puts one in front; on a platform that is
    neither darwin nor windows [init] installs nothing and a call of either
    function panics. *)
Theorem C5_round_trip_breaks (NFC NFD : string → string) :
  validCanonical win "/a/b" = true
  ∧ toNative NFC NFD win "/a/b" = Returns "\a\b"
  ∧ toCanonical NFC NFD win "\a\b" = Returns "//a/b"
  ∧ toCanonical NFC NFD "linux" "/a/b"
    = Panics "invalid memory address or nil pointer dereference"
  ∧ toNative NFC NFD "linux" "/a/b"
    = Panics "invalid memory address or nil pointer dereference".
Proof. repeat split; reflexivity. Qed.

(* ===================================================================== *)
(** * Properties of the Raw-Event Translator *)
(* ===================================================================== *)

Section TranslatorFacts.
Context {S : Type} {afs : Fs S}.
Variable GOOS : string.
Variable EvalSymlinks : string → string + error.
Variable VolumeName : string → string.
Variable normalize : string → string.
Variable K : notify.Events.
Variable now : string.
Variable IsIgnoredFile : string → bool.

Local Abbreviation eventPath c event := (eventPathOf GOOS EvalSymlinks VolumeName c event).
Local Abbreviation translate :=
  (notifyEventToEventInfo GOOS EvalSymlinks VolumeName normalize K now).
Local Abbreviation loop :=
  (forward GOOS EvalSymlinks VolumeName normalize K now IsIgnoredFile).

(** C1, as the code has it. A notification whose mask matches Create or
    Write and whose target can be stat-ed is translated to one event and
    no error; the event has type Create for a Create mask and for a Write
    mask alike, and its size and folder flag are those of the stat. *)
Theorem C1_create_or_write_yields_create
    (c : FSClient S) (event : notify.EventInfo) (i : FileInfo.t) :
  isEventType (EventTypeCreate K) (notify.Event event)
    || isEventType (EventTypeWrite K) (notify.Event event) = true →
  Stat (FS c) (eventPath c event) = inl i →
  translate c event
  = (common.mk now (FileInfo.Size i) (FileInfo.IsDir i)
               (normalize (eventPath c event)) common.EventCreate
               (Some (RootPath c)), None).
Proof.
  intros Hmask Hstat. unfold notifyEventToEventInfo.
  rewrite Hmask, Hstat. reflexivity.
Qed.

(** C3. A notification that falls under the Rename rule, the third of the
    priority order: its mask matches Rename and neither Create nor Write.
    When the stat of the target answers not-found the event is a Remove
    with no size and no folder flag; when the stat succeeds the event is a
    Rename with the size and the folder flag of the stat. *)
Theorem C3_rename_when_not_create_or_write
    (c : FSClient S) (event : notify.EventInfo) :
  isEventType (EventTypeCreate K) (notify.Event event) = false →
  isEventType (EventTypeWrite K) (notify.Event event) = false →
  isEventType (EventTypeRename K) (notify.Event event) = true →
  match Stat (FS c) (eventPath c event) with
  | inl i =>
      translate c event
      = (common.mk now (FileInfo.Size i) (FileInfo.IsDir i)
                   (normalize (eventPath c event)) common.EventRename
                   (Some (RootPath c)), None)
  | inr e =>
      if IsNotExist (Some e) then
        translate c event
        = (common.mk now 0 false (normalize (eventPath c event))
                     common.EventRemove (Some (RootPath c)), None)
      else translate c event = (common.empty, Some e)
  end.
Proof.
  intros Hc Hw Hr. unfold notifyEventToEventInfo.
  rewrite Hc, Hw, Hr. cbn [orb].
  destruct (Stat (FS c) (eventPath c event)) as [i|e]; [reflexivity|].
  destruct (IsNotExist (Some e)); reflexivity.
Qed.

(** C4. A Create or Write notification whose target fails to stat: on
    not-found the translator answers the empty event and no error, and the
    loop of [Watch] sends nothing; on any other failure the translator
    answers that error, and the loop sends it on the error channel
    (unless the path is on the ignore list, which the loop checks
    first). *)
Theorem C4_stat_failure_on_create_or_write
    (c : FSClient S) (event : notify.EventInfo) (e : error) :
  isEventType (EventTypeCreate K) (notify.Event event)
    || isEventType (EventTypeWrite K) (notify.Event event) = true →
  Stat (FS c) (eventPath c event) = inr e →
  if IsNotExist (Some e) then
    translate c event = (common.empty, None) ∧ loop c event = Nothing
  else
    translate c event = (common.empty, Some e)
    ∧ loop c event
      = (if IsIgnoredFile (notify.Path event) then Nothing else ToErrorChan e).
Proof.
  intros Hmask Hstat. unfold forward, notifyEventToEventInfo.
  rewrite Hmask, Hstat.
  destruct (IsNotExist (Some e)); split; try reflexivity.
  - destruct (IsIgnoredFile _); [reflexivity|].
    destruct (decide (common.empty ≠ common.empty)); [congruence | reflexivity].
Qed.
End TranslatorFacts.

(** C1, as the claim states it, fails: the Write notification for
    [\docs\readme.txt], which holds "v2", is translated to an event of type
    Create, not Write. *)
Lemma C1_write_is_not_tagged_write :
  isEventType (EventTypeWrite Fixture.bits) (notify.Event Fixture.writeReadme) = true
  ∧ Stat (Fs := memMapFs "\") (FS Fixture.client)
         (eventPathOf win Fixture.evalSymlinks Fixture.volumeName
                      Fixture.client Fixture.writeReadme)
    = inl (FileInfo.mk 2 false)
  ∧ common.Type_ (fst (Fixture.translator Fixture.client Fixture.writeReadme))
    = common.EventCreate
  ∧ common.Type_ (fst (Fixture.translator Fixture.client Fixture.writeReadme))
    ≠ common.EventWrite.
Proof. repeat split; try reflexivity. vm_compute. discriminate. Qed.

Lemma C1_witness :
  Fixture.translator Fixture.client Fixture.writeReadme
  = (common.mk Fixture.clock 2 false "//docs/readme.txt" common.EventCreate
               (Some "c:\root"), None).
Proof.
  exact (C1_create_or_write_yields_create (afs := memMapFs "\")
           win Fixture.evalSymlinks Fixture.volumeName Fixture.normalizeWin
           Fixture.bits Fixture.clock Fixture.client Fixture.writeReadme
           (FileInfo.mk 2 false) eq_refl eq_refl).
Defined.

(** The rules are tried in their order of priority: a mask with the Create
    and the Rename bit, for a target that is gone, falls under the Create
    rule and is translated to nothing. *)
Lemma rename_with_create_bit_falls_under_create :
  isEventType (EventTypeRename Fixture.bits) (notify.Event Fixture.createAndRenameGone)
  = true
  ∧ Stat (Fs := memMapFs "\") (FS Fixture.client)
         (eventPathOf win Fixture.evalSymlinks Fixture.volumeName
                      Fixture.client Fixture.createAndRenameGone)
    = inr ErrNotExist
  ∧ Fixture.translator Fixture.client Fixture.createAndRenameGone
    = (common.empty, None)
  ∧ common.Type_ (fst (Fixture.translator Fixture.client Fixture.createAndRenameGone))
    ≠ common.EventRemove.
Proof. repeat split; try reflexivity. vm_compute. discriminate. Qed.

Lemma C3_witness :
  Fixture.translator Fixture.client Fixture.renameGone
  = (common.mk Fixture.clock 0 false "//docs/gone.txt" common.EventRemove
               (Some "c:\root"), None).
Proof.
  exact (C3_rename_when_not_create_or_write (afs := memMapFs "\")
           win Fixture.evalSymlinks Fixture.volumeName Fixture.normalizeWin
           Fixture.bits Fixture.clock Fixture.client Fixture.renameGone
           eq_refl eq_refl eq_refl).
Defined.

Lemma C4_witness :
  Fixture.translator Fixture.client Fixture.createGone = (common.empty, None)
  ∧ Fixture.loopBody Fixture.client Fixture.createGone = Nothing.
Proof.
  exact (C4_stat_failure_on_create_or_write (afs := memMapFs "\")
           win Fixture.evalSymlinks Fixture.volumeName Fixture.normalizeWin
           Fixture.bits Fixture.clock Fixture.isIgnoredFile
           Fixture.client Fixture.createGone ErrNotExist eq_refl eq_refl).
Defined.

(* ===================================================================== *)
(** * Facts about [filepath] and the in-memory table *)
(* ===================================================================== *)

Lemma append_nil_r (s : string) : s +:+ "" = s.
Proof.
  induction s as [|c s IH]; [done|].
  change (String c (s +:+ "") = String c s). by rewrite IH.
Qed.

Lemma length_append (s t : string) :
  String.length (s +:+ t) = (String.length s + String.length t)%nat.
Proof.
  induction s as [|c s IH]; [done|].
  change (S (String.length (s +:+ t)) = S (String.length s + String.length t)).
  by rewrite IH.
Qed.

#[local] Instance String_inj (c : ascii) : Inj (=) (=) (String c).
Proof. intros x y H. by injection H. Qed.

Section FilepathFacts.
Variable sep : ascii.

Lemma cuts_length s a :
  a ∈ filepath.cuts sep s → (0 < String.length a < String.length s)%nat.
Proof.
  revert a. induction s as [|c s IH]; intros a; cbn [filepath.cuts].
  - intros H. inversion H.
  - rewrite elem_of_app. intros [H|H].
    + destruct s as [|d s']; [inversion H|].
      destruct (Ascii.eqb d sep); [|inversion H].
      apply list_elem_of_singleton in H. subst a. cbn. lia.
    + apply list_elem_of_In, in_map_iff in H as (x & <- & Hx).
      apply list_elem_of_In, IH in Hx. cbn. lia.
Qed.

Lemma cuts_NoDup s : NoDup (filepath.cuts sep s).
Proof.
  induction s as [|c s IH]; cbn [filepath.cuts]; [constructor|].
  apply NoDup_app. split; [|split].
  - destruct s as [|d s']; [constructor|].
    destruct (Ascii.eqb d sep); [apply NoDup_singleton | constructor].
  - intros a Ha Hin.
    apply list_elem_of_In, in_map_iff in Hin as (x & <- & Hx).
    apply list_elem_of_In, cuts_length in Hx.
    destruct s as [|d s']; [inversion Ha|].
    destruct (Ascii.eqb d sep); [|inversion Ha].
    apply list_elem_of_singleton in Ha. injection Ha as ->. cbn in Hx. lia.
  - apply (NoDup_fmap_2 (String c)), IH.
Qed.

Lemma ancestors_shorter s a :
  a ∈ filepath.ancestors sep s → (String.length a < String.length s)%nat.
Proof.
  unfold filepath.ancestors. destruct s as [|c [|d s'']]; try (intros H; inversion H; fail).
  destruct (Ascii.eqb c sep).
  - rewrite list_elem_of_In, <- in_rev, <- list_elem_of_In.
    rewrite elem_of_cons. intros [->|H]; [cbn; lia|].
    destruct (Ascii.eqb d sep); [inversion H|].
    apply list_elem_of_In, in_map_iff in H as (x & <- & Hx).
    apply list_elem_of_In, cuts_length in Hx. cbn in *. lia.
  - rewrite list_elem_of_In, <- in_rev, <- list_elem_of_In.
    intros H. apply cuts_length in H. lia.
Qed.

Lemma ancestors_not_self s : s ∉ filepath.ancestors sep s.
Proof. intros H. apply ancestors_shorter in H. lia. Qed.

Lemma ancestors_NoDup s : NoDup (filepath.ancestors sep s).
Proof.
  unfold filepath.ancestors. destruct s as [|c [|d s'']]; try constructor.
  destruct (Ascii.eqb c sep).
  - apply NoDup_ListNoDup, List.NoDup_rev, NoDup_ListNoDup.
    constructor.
    + destruct (Ascii.eqb d sep); [inversion 1|].
      intros H. apply list_elem_of_In, in_map_iff in H as (x & Hx & Hin).
      apply list_elem_of_In, cuts_length in Hin. injection Hx as _ ->. cbn in Hin. lia.
    + destruct (Ascii.eqb d sep); [constructor|].
      apply (NoDup_fmap_2 (String c)), cuts_NoDup.
  - apply NoDup_ListNoDup, List.NoDup_rev, NoDup_ListNoDup, cuts_NoDup.
Qed.
End FilepathFacts.

Lemma forallb_ext_on {A : Type} (f g : A → bool) (l : list A) :
  (∀ x, x ∈ l → f x = g x) → forallb f l = forallb g l.
Proof.
  induction l as [|a l IH]; intros H; cbn; [done|].
  rewrite (H a) by apply list_elem_of_here.
  rewrite IH; [done|]. intros x Hx. apply H. by apply list_elem_of_further.
Qed.

Section TableFacts.
Variable sep : ascii.
Implicit Types (m : gmap string mem.FileData) (k p : string).

Lemma isDirIn_insert_dir m p k d :
  mem.dir d = true → isDirIn m k = true → isDirIn (<[p := d]> m) k = true.
Proof.
  unfold isDirIn. intros Hd H. destruct (decide (p = k)) as [->|Hne].
  - by rewrite lookup_insert_eq.
  - by rewrite lookup_insert_ne.
Qed.

(** Registering with the parent only adds directories and marks entries
    as directories. *)
Lemma registerChain_keeps_dir chain : ∀ m k,
  isDirIn m k = true → isDirIn (MemMapFs.registerChain m chain) k = true.
Proof.
  induction chain as [|p rest IH]; intros m k H; cbn [MemMapFs.registerChain]; [done|].
  destruct (m !! p) as [d|] eqn:Hp.
  - by apply isDirIn_insert_dir.
  - apply IH. by apply isDirIn_insert_dir.
Qed.

Lemma registerChain_other chain : ∀ m k,
  k ∉ chain → MemMapFs.registerChain m chain !! k = m !! k.
Proof.
  induction chain as [|p rest IH]; intros m k H; cbn [MemMapFs.registerChain]; [done|].
  apply not_elem_of_cons in H as [Hne Hrest].
  destruct (m !! p) as [d|] eqn:Hp.
  - by rewrite lookup_insert_ne.
  - rewrite IH by done. by rewrite lookup_insert_ne.
Qed.

(** A directory that is present stays as it is. *)
Lemma registerChain_dir_fixed chain : ∀ m k d,
  m !! k = Some d → mem.dir d = true →
  MemMapFs.registerChain m chain !! k = Some d.
Proof.
  induction chain as [|p rest IH]; intros m k d Hk Hd; cbn [MemMapFs.registerChain]; [done|].
  destruct (m !! p) as [d'|] eqn:Hp.
  - destruct (decide (p = k)) as [->|Hne].
    + rewrite lookup_insert_eq. rewrite Hk in Hp. injection Hp as <-.
      destruct d as [dd db]. cbn in Hd. subst dd. reflexivity.
    + by rewrite lookup_insert_ne.
  - apply IH; [|done]. rewrite lookup_insert_ne; [done|]. intros ->. congruence.
Qed.

Lemma chainClosed_insert_other chain : ∀ m p d,
  p ∉ chain → chainClosed (<[p := d]> m) chain = chainClosed m chain.
Proof.
  induction chain as [|a rest IH]; intros m p d H; cbn [chainClosed]; [done|].
  apply not_elem_of_cons in H as [Hne Hrest].
  rewrite lookup_insert_ne by done.
  destruct (m !! a); [|by apply IH].
  apply forallb_ext_on. intros b Hb. unfold isDirIn.
  rewrite lookup_insert_ne; [done|]. intros ->. contradiction.
Qed.

Lemma registerChain_makes_dirs chain : ∀ m,
  NoDup chain → chainClosed m chain = true →
  ∀ a, a ∈ chain → isDirIn (MemMapFs.registerChain m chain) a = true.
Proof.
  induction chain as [|p rest IH]; intros m Hnd Hcl a Ha; [inversion Ha|].
  apply NoDup_cons in Hnd as [Hp Hnd]. cbn [MemMapFs.registerChain chainClosed] in *.
  destruct (m !! p) as [d|] eqn:Hmp.
  - apply elem_of_cons in Ha as [->|Ha].
    + unfold isDirIn. by rewrite lookup_insert_eq.
    + apply isDirIn_insert_dir; [done|].
      rewrite forallb_forall in Hcl. by apply Hcl, list_elem_of_In.
  - apply elem_of_cons in Ha as [->|Ha].
    + apply registerChain_keeps_dir. unfold isDirIn. by rewrite lookup_insert_eq.
    + apply IH; [done| |done]. by rewrite chainClosed_insert_other.
Qed.

Lemma MkdirAll_absent m p :
  m !! p = None →
  MemMapFs.MkdirAll sep m p
  = (MemMapFs.registerWithParent sep (<[p := mem.CreateDir]> m) p, None).
Proof. intros H. unfold MemMapFs.MkdirAll, MemMapFs.Mkdir. by rewrite H. Qed.

Lemma WriteFile_keeps_dir m name b k :
  isDirIn m k = true → isDirIn (fst (MemMapFs.WriteFile sep m name b)) k = true.
Proof.
  intros H. unfold MemMapFs.WriteFile.
  destruct (m !! name) as [d|] eqn:Hn; cbn [fst].
  - unfold isDirIn in *. destruct (decide (name = k)) as [->|Hne].
    + rewrite lookup_insert_eq. by rewrite Hn in H.
    + by rewrite lookup_insert_ne.
  - assert (name ≠ k) as Hne.
    { intros ->. unfold isDirIn in H. by rewrite Hn in H. }
    unfold isDirIn. rewrite lookup_insert_ne by done.
    apply registerChain_keeps_dir. unfold isDirIn. by rewrite lookup_insert_ne.
Qed.

Lemma WriteFile_data m name b :
  mem.data <$> (fst (MemMapFs.WriteFile sep m name b) !! name) = Some b.
Proof.
  unfold MemMapFs.WriteFile.
  destruct (m !! name) as [d|]; cbn [fst]; by rewrite lookup_insert_eq.
Qed.

(** After [MkdirAll] of an absent name the name is a directory, and so are
    its ancestors. *)
Lemma MkdirAll_makes_dirs m p :
  m !! p = None → chainClosed m (filepath.ancestors sep p) = true →
  snd (MemMapFs.MkdirAll sep m p) = None
  ∧ isDirIn (fst (MemMapFs.MkdirAll sep m p)) p = true
  ∧ ∀ a, a ∈ filepath.ancestors sep p →
         isDirIn (fst (MemMapFs.MkdirAll sep m p)) a = true.
Proof.
  intros Hp Hcl. rewrite MkdirAll_absent by done. cbn [fst snd].
  split; [done|]. unfold MemMapFs.registerWithParent. split.
  - apply registerChain_keeps_dir. unfold isDirIn. by rewrite lookup_insert_eq.
  - apply registerChain_makes_dirs; [apply ancestors_NoDup|].
    rewrite chainClosed_insert_other; [done | apply ancestors_not_self].
Qed.
End TableFacts.

(* ===================================================================== *)
(** * Properties of [CreateNode], [UpdateNode] and [GetWriterOn] *)
(* ===================================================================== *)

Lemma Fixture_storage_built : built "\" Fixture.storage.
Proof.
  unfold Fixture.storage. cbv zeta.
  repeat (first [ apply built_WriteFile; [|reflexivity]
                | apply built_MkdirAll; [|reflexivity] ]).
  apply built_root.
Qed.

Section CrudFacts.
Context {S : Type} {afs : Fs S}.
Variable sep : ascii.
Variable denormalize : string → string.

Lemma CreateNode_leaf (c : FSClient S) node upd :
  tree.IsLeaf node = true →
  is_Some (snd (CreateNode sep denormalize c node upd))
  ∧ fst (CreateNode sep denormalize c node upd) = FS c.
Proof. intros H. unfold CreateNode. rewrite H. cbn. eauto. Qed.

Lemma CreateNode_collection_returns (c : FSClient S) node upd :
  tree.IsLeaf node = false →
  snd (CreateNode sep denormalize c node upd)
  = if IsNotExist (errOf (Stat (FS c) (denormalize (tree.Path node))))
    then snd (MkdirAll (FS c) (denormalize (tree.Path node)))
    else None.
Proof.
  intros H. unfold CreateNode. rewrite H.
  destruct (IsNotExist _); [|done]. by destruct (MkdirAll _ _).
Qed.

Lemma CreateNode_collection_error (c : FSClient S) node upd :
  tree.IsLeaf node = false →
  is_Some (snd (CreateNode sep denormalize c node upd))
  ↔ IsNotExist (errOf (Stat (FS c) (denormalize (tree.Path node)))) = true
    ∧ is_Some (snd (MkdirAll (FS c) (denormalize (tree.Path node)))).
Proof.
  intros H. unfold CreateNode. rewrite H.
  destruct (IsNotExist _).
  - destruct (MkdirAll _ _) as [s1 err]. cbn [snd]. tauto.
  - cbn [snd]. split; [intros [? ?]; discriminate | intros [? _]; discriminate].
Qed.

Lemma CreateNode_collection_state (c : FSClient S) node upd :
  tree.IsLeaf node = false →
  IsNotExist (errOf (Stat (FS c) (denormalize (tree.Path node)))) = true →
  fst (CreateNode sep denormalize c node upd)
  = if String.eqb (tree.Uuid node) ""
    then fst (MkdirAll (FS c) (denormalize (tree.Path node)))
    else fst (WriteFile (fst (MkdirAll (FS c) (denormalize (tree.Path node))))
                        (filepath.Join sep (denormalize (tree.Path node)) ".__pydio")
                        (tree.Uuid node)).
Proof.
  intros H Hne. unfold CreateNode. rewrite H, Hne.
  destruct (MkdirAll _ _) as [s1 err]. cbn [fst].
  by destruct (String.eqb _ _).
Qed.

(** C10, as the code has it. For a node that is not a Leaf and whose path
    can be stat-ed, [CreateNode] and [UpdateNode] answer nil and hand back
    the storage as it was: nothing is rewritten, whatever the identifier
    of the node. *)
Theorem C10_existing_collection_is_left_alone
    (c : FSClient S) (node : tree.Node) (upd : bool) (i : FileInfo.t) :
  tree.IsLeaf node = false →
  Stat (FS c) (denormalize (tree.Path node)) = inl i →
  CreateNode sep denormalize c node upd = (FS c, None)
  ∧ UpdateNode sep denormalize c node = (FS c, None).
Proof.
  intros Hleaf Hstat. unfold UpdateNode, CreateNode.
  rewrite Hleaf, Hstat. cbn. done.
Qed.
End CrudFacts.

Lemma CreateNode_on_table sep denormalize root (m : gmap string mem.FileData) node upd :
  let fPath := denormalize (tree.Path node) in
  let r := CreateNode (afs := memMapFs sep) sep denormalize (mkClient root m) node upd in
  tree.IsLeaf node = false →
  m !! fPath = None →
  chainClosed m (filepath.ancestors sep fPath) = true →
  snd r = None
  ∧ isDirIn (fst r) fPath = true
  ∧ (∀ a, a ∈ filepath.ancestors sep fPath → isDirIn (fst r) a = true)
  ∧ (tree.Uuid node ≠ "" →
     mem.data <$> (fst r !! filepath.Join sep fPath ".__pydio") = Some (tree.Uuid node)).
Proof.
  intros fPath r Hleaf Hp Hcl.
  destruct (MkdirAll_makes_dirs sep m fPath Hp Hcl) as (Herr & Hdir & Hanc).
  subst r. unfold CreateNode. rewrite Hleaf. cbn [FS Stat memMapFs MkdirAll WriteFile].
  fold fPath.
  assert (IsNotExist (errOf (MemMapFs.Stat m fPath)) = true) as ->.
  { unfold MemMapFs.Stat. by rewrite Hp. }
  destruct (MemMapFs.MkdirAll sep m fPath) as [m1 err] eqn:Hmk. cbn [fst snd] in *.
  split; [done|].
  destruct (String.eqb (tree.Uuid node) "") eqn:Hu; cbn [negb].
  - apply String.eqb_eq in Hu. repeat split; try done.
  - repeat split.
    + by apply WriteFile_keeps_dir.
    + intros a Ha. by apply WriteFile_keeps_dir, Hanc.
    + intros _. apply WriteFile_data.
Qed.

(** C7, as the code has it. [CreateNode] answers an error when the node is
    a Leaf. For a node that is not a Leaf the error it answers is the one
    of [MkdirAll] when the stat of the path says not-found, and nil
    otherwise, so it answers an error exactly when the stat says not-found
    and [MkdirAll] fails; when the stat says not-found and the path is a
    cleaned name, the storage afterwards is that of [MkdirAll] on the
    path, followed by the write of the marker file [.__pydio] with the
    identifier when the identifier is not empty. On the in-memory backend,
    in a table made by creations only, for a cleaned path that is absent
    and whose nearest present ancestor has only directories above it: the
    call answers nil, afterwards the path and all its ancestors are
    directories, and the marker file holds the identifier when one was
    supplied. *)
Theorem C7_CreateNode_errors_and_effects :
  (∀ (S : Type) (afs : Fs S) (sep : ascii) (denormalize : string → string)
     (c : FSClient S) (node : tree.Node) (upd : bool),
     let fPath := denormalize (tree.Path node) in
     let r := CreateNode sep denormalize c node upd in
     (tree.IsLeaf node = true → is_Some (snd r) ∧ fst r = FS c)
     ∧ (tree.IsLeaf node = false →
        snd r = (if IsNotExist (errOf (Stat (FS c) fPath))
                 then snd (MkdirAll (FS c) fPath)
                 else None)
        ∧ (is_Some (snd r)
           ↔ IsNotExist (errOf (Stat (FS c) fPath)) = true
             ∧ is_Some (snd (MkdirAll (FS c) fPath)))
        ∧ (IsNotExist (errOf (Stat (FS c) fPath)) = true →
           filepath.cleaned sep fPath = true →
           fst r = if String.eqb (tree.Uuid node) ""
                   then fst (MkdirAll (FS c) fPath)
                   else fst (WriteFile (fst (MkdirAll (FS c) fPath))
                                       (filepath.Join sep fPath ".__pydio")
                                       (tree.Uuid node)))))
  ∧ (∀ (sep : ascii) (denormalize : string → string) (root : string)
       (m : gmap string mem.FileData) (node : tree.Node) (upd : bool),
       let fPath := denormalize (tree.Path node) in
       let r := CreateNode (afs := memMapFs sep) sep denormalize (mkClient root m) node upd in
       built sep m →
       tree.IsLeaf node = false →
       filepath.cleaned sep fPath = true →
       m !! fPath = None →
       chainClosed m (filepath.ancestors sep fPath) = true →
       snd r = None
       ∧ isDirIn (fst r) fPath = true
       ∧ (∀ a, a ∈ filepath.ancestors sep fPath → isDirIn (fst r) a = true)
       ∧ (tree.Uuid node ≠ "" →
          mem.data <$> (fst r !! filepath.Join sep fPath ".__pydio")
          = Some (tree.Uuid node))).
Proof.
  split.
  - intros S afs sep denormalize c node upd fPath r. split; [|split; [|split]].
    + apply CreateNode_leaf.
    + by apply CreateNode_collection_returns.
    + by apply CreateNode_collection_error.
    + intros Hne _. by apply CreateNode_collection_state.
  - intros sep denormalize root m node upd fPath r _ Hleaf _.
    by apply CreateNode_on_table.
Qed.

(** C7, as the claim states it, fails: on a read-only backend the creation
    of the absent collection [/docs/new] answers an error, and the node is
    not a Leaf. *)
Lemma C7_collection_on_read_only_backend_errors :
  tree.IsLeaf (Fixture.collection "/docs/new" "id-1") = false
  ∧ snd (CreateNode (afs := readOnlyFs (memMapFs "\")) "\" Fixture.denormalizeWin
                    Fixture.client (Fixture.collection "/docs/new" "id-1") false)
    = Some ErrPermission.
Proof. split; reflexivity. Qed.

Lemma C7_witness :
  let r := CreateNode (afs := memMapFs "\") "\" Fixture.denormalizeWin
                      Fixture.client (Fixture.collection "/x/new" "id-1") false in
  snd r = None
  ∧ isDirIn (fst r) "\x\new" = true
  ∧ (∀ a, a ∈ ["\x"; "\"] → isDirIn (fst r) a = true)
  ∧ mem.data <$> (fst r !! "\x\new\.__pydio") = Some "id-1".
Proof.
  destruct C7_CreateNode_errors_and_effects as [_ Hmem].
  destruct (Hmem "\"%char Fixture.denormalizeWin "c:\root" Fixture.storage
                 (Fixture.collection "/x/new" "id-1") false
                 Fixture_storage_built eq_refl eq_refl eq_refl eq_refl)
    as (H1 & H2 & H3 & H4).
  refine (conj H1 (conj H2 (conj H3 (H4 _)))). discriminate.
Defined.

(** C10, as the claim states it, fails: for the Leaf node of the existing
    path [/docs/readme.txt], [CreateNode] and [UpdateNode] answer an error,
    not nil (the storage is left as it was). *)
Lemma C10_existing_leaf_is_refused :
  Stat (Fs := memMapFs "\") (FS Fixture.client)
       (Fixture.denormalizeWin (tree.Path (Fixture.leaf "/docs/readme.txt")))
  = inl (FileInfo.mk 2 false)
  ∧ snd (CreateNode (afs := memMapFs "\") "\" Fixture.denormalizeWin
                    Fixture.client (Fixture.leaf "/docs/readme.txt") false) ≠ None
  ∧ snd (UpdateNode (afs := memMapFs "\") "\" Fixture.denormalizeWin
                    Fixture.client (Fixture.leaf "/docs/readme.txt")) ≠ None.
Proof. repeat split; try reflexivity; vm_compute; discriminate. Qed.

Lemma C10_witness :
  CreateNode (afs := memMapFs "\") "\" Fixture.denormalizeWin
             Fixture.client (Fixture.collection "/docs" "another-id") false
  = (Fixture.storage, None)
  ∧ UpdateNode (afs := memMapFs "\") "\" Fixture.denormalizeWin
               Fixture.client (Fixture.collection "/docs" "another-id")
    = (Fixture.storage, None).
Proof.
  exact (C10_existing_collection_is_left_alone (afs := memMapFs "\")
           "\"%char Fixture.denormalizeWin Fixture.client
           (Fixture.collection "/docs" "another-id") false
           (FileInfo.mk 42 true) eq_refl eq_refl).
Defined.

Section WriterFacts.
Variable sep : ascii.
Variable denormalize : string → string.

(** On an absent path the writer is a handle from [Create], and what is
    written through it is the content of the file. *)
Lemma GetWriterOn_absent root (m : gmap string mem.FileData) p b :
  m !! denormalize p = None →
  ∃ m1 f,
    GetWriterOn (afs := memMapFs sep) denormalize (mkClient root m) p = (m1, inl f)
    ∧ readOnly f = false
    ∧ mem.data <$> (fst (Write (Fs := memMapFs sep) m1 f b) !! denormalize p) = Some b.
Proof.
  intros H. unfold GetWriterOn. cbn [FS Stat memMapFs Create].
  unfold MemMapFs.Stat. rewrite H. cbn [errOf IsNotExist].
  eexists _, _. split; [reflexivity|]. split; [reflexivity|].
  cbn [Write memMapFs]. unfold MemMapFs.Write. cbn [readOnly fileName].
  unfold MemMapFs.registerWithParent.
  rewrite registerChain_other by apply ancestors_not_self.
  rewrite lookup_insert_eq. cbn [fst]. rewrite lookup_insert_eq.
  cbn [fmap option_fmap option_map mem.data mem.dir mem.CreateFile strings.drop].
  assert (∀ n, strings.drop n "" = "") as -> by (by intros []).
  by rewrite append_nil_r.
Qed.

(** C8. On the in-memory backend, for a path that exists, [GetWriterOn]
    answers the handle of [Open], which is read-only: a write through it
    is refused and the content of the file stays as it was. The claim asks
    for a handle opened for write. *)
Theorem C8_writer_on_existing_path_is_read_only
    (root : string) (m : gmap string mem.FileData) (p : string)
    (d : mem.FileData) (b : string) :
  m !! denormalize p = Some d →
  GetWriterOn (afs := memMapFs sep) denormalize (mkClient root m) p
  = (m, inl (mkFile (denormalize p) true))
  ∧ Write (Fs := memMapFs sep) m (mkFile (denormalize p) true) b
    = (m, (0, Some ErrReadOnlyHandle)).
Proof.
  intros H. split; [|reflexivity].
  unfold GetWriterOn. cbn [FS Stat memMapFs Open].
  unfold MemMapFs.Stat, MemMapFs.Open. by rewrite H.
Qed.
End WriterFacts.

Lemma C8_witness :
  GetWriterOn (afs := memMapFs "\") Fixture.denormalizeWin Fixture.client "/docs/readme.txt"
  = (Fixture.storage, inl (mkFile "\docs\readme.txt" true))
  ∧ Write (Fs := memMapFs "\") Fixture.storage (mkFile "\docs\readme.txt" true) "v3"
    = (Fixture.storage, (0, Some ErrReadOnlyHandle)).
Proof.
  exact (C8_writer_on_existing_path_is_read_only "\"%char Fixture.denormalizeWin
           "c:\root" Fixture.storage "/docs/readme.txt" (mem.mkData false "v2") "v3"
           eq_refl).
Defined.

(* ===================================================================== *)
(** * Properties of [MoveNode] and [moveRecursively] *)
(* ===================================================================== *)





Section MoveFacts.
Context {St : Type} {afs : Fs St}.
Variables oldPath newPath : string.





End MoveFacts.

Section RelocateFacts.
Variable sep : ascii.
Variable dst : string → string.
Implicit Types (m : gmap string mem.FileData) (w x : string).

(** The plain rename of one walked path to its destination. *)
Local Abbreviation move := (λ m w, fst (MemMapFs.Rename sep m w (dst w))).

Lemma Rename_present m w t d :
  w ≠ t → m !! w = Some d →
  fst (MemMapFs.Rename sep m w t)
  = MemMapFs.registerChain (<[t := d]> (delete w m)) (filepath.ancestors sep t).
Proof.
  intros Hne Hw. unfold MemMapFs.Rename.
  apply String.eqb_neq in Hne. by rewrite Hne, Hw.
Qed.

(** One rename leaves every other entry as it is, also an ancestor of the
    destination that is a directory already. *)
Lemma Rename_frame m w t d x :
  w ≠ t → m !! w = Some d → x ≠ w → x ≠ t →
  (x ∈ filepath.ancestors sep t → isDirIn m x = true) →
  fst (MemMapFs.Rename sep m w t) !! x = m !! x.
Proof.
  intros Hne Hw Hxw Hxt Hanc. rewrite (Rename_present m w t d) by done.
  destruct (decide (x ∈ filepath.ancestors sep t)) as [Hin|Hout].
  - apply Hanc in Hin. unfold isDirIn in Hin.
    destruct (m !! x) as [dx|] eqn:Hx; [|done].
    apply registerChain_dir_fixed; [|done].
    rewrite lookup_insert_ne by done. by rewrite lookup_delete_ne.
  - rewrite registerChain_other by done.
    rewrite lookup_insert_ne by done. by rewrite lookup_delete_ne.
Qed.

Lemma Rename_source m w t d :
  w ≠ t → m !! w = Some d → w ∉ filepath.ancestors sep t →
  fst (MemMapFs.Rename sep m w t) !! w = None.
Proof.
  intros Hne Hw Hanc. rewrite (Rename_present m w t d) by done.
  rewrite registerChain_other by done.
  rewrite lookup_insert_ne by done. by rewrite lookup_delete_eq.
Qed.

Lemma Rename_destination m w t d :
  w ≠ t → m !! w = Some d →
  fst (MemMapFs.Rename sep m w t) !! t = Some d.
Proof.
  intros Hne Hw. rewrite (Rename_present m w t d) by done.
  rewrite registerChain_other by apply ancestors_not_self.
  by rewrite lookup_insert_eq.
Qed.

End RelocateFacts.

Section WalkFacts.
Variable sep : ascii.






End WalkFacts.


Section MoveNodeFacts.
Variable sep : ascii.
Variable denormalize : string → string.

End MoveNodeFacts.


(* ===================================================================== *)
(** * Properties of the Watch Lifecycle Manager *)
(* ===================================================================== *)

(** On the in-memory backend [Watch] starts no goroutine. *)
Lemma Watch_in_memory registration raw :
  Watch.Watch (afs := memMapFs "\") registration raw = Watch.Idle.
Proof. reflexivity. Qed.

(** C9. A session on a backend that is not in memory, with one Remove
    notification: the closer goroutine closes [eventChan] right after
    [notify.Stop], without waiting for the forwarder. Under the schedule
    [lateSend] the forwarder then takes the event that the pipe still holds
    and its send on the closed [eventChan] panics; under [closeUnderSend]
    the channel is closed while the forwarder waits in its send, which
    panics as well. The claim asks that no send follows the close. *)
Theorem C9_send_on_closed_event_channel :
  Watch.Watch (afs := readOnlyFs (memMapFs "\")) None [Fixture.removeReadme]
  = Watch.Running (Watch.start [Fixture.removeReadme])
  ∧ Watch.run Fixture.diskLoopBody Fixture.client Fixture.lateSend
              (Watch.start [Fixture.removeReadme]) = Panic
  ∧ Watch.run Fixture.diskLoopBody Fixture.client Fixture.closeUnderSend
              (Watch.start [Fixture.removeReadme]) = Panic.
Proof. repeat split; vm_compute; reflexivity. Qed.

(* ===================================================================== *)
(** * Properties of the Growable Event Buffer *)
(* ===================================================================== *)

Module PipeChanFacts.
Import PipeChan PipeChanSpec.

Ltac divlia := Z.to_euclidean_division_equations; lia.


(** Turn the boolean tests of a step into inequalities. *)
Ltac tests :=
repeat match goal with
  | H : (_ <? _) = true |- _ => apply Z.ltb_lt in H
  | H : (_ <? _) = false |- _ => apply Z.ltb_ge in H
  | H : (_ <=? _) = true |- _ => apply Z.leb_le in H
  | H : (_ <=? _) = false |- _ => apply Z.leb_gt in H
  | H : (_ >=? _) = true |- _ => rewrite Z.geb_leb in H; apply Z.leb_le in H
  | H : (_ >=? _) = false |- _ => rewrite Z.geb_leb in H; apply Z.leb_gt in H
  end.

(** Open a turn that moved on into the statement that ran. *)
Ltac turns H :=
unfold step, sender, splitterTurn, drainerTurn, reader,
       pushCurr, replaceCurr, goto, drainerAt in H;
repeat (match type of H with
        | context [match ?x with _ => _ end] => destruct x eqn:?
        end; try discriminate);
simplify_eq; tests.

Section Facts.
Context {A : Type}.
Variable capacity : Z.
Hypothesis capacity_pos : 0 < capacity.
Variable input : list A.

Implicit Types (s : state (A := A)) (sg : list (chan A)).

Lemma control_init : control capacity (init capacity input).
Proof. constructor; cbn; try done. Qed.

Lemma control_step who s s' :
  control capacity s → step capacity who s = Next s' → control capacity s'.
Proof.
  intros Hc Hstep. destruct who; turns Hstep; destruct Hc.
  all: repeat match goal with
         | H : sp ?x = _ |- _ => rewrite H in *
         | H : dr ?x = _ |- _ => rewrite H in *
         end.
  all: constructor; cbn; rewrite ?length_app, ?length_insert; cbn.
  all: try (done || lia).
  all: try (intuition (try discriminate; try congruence); fail).
  all: repeat case_match; rewrite ?length_insert.
  all: try match goal with
         | H1 : segs ?s = [], H2 : segs ?s !! _ = Some _ |- _ =>
             rewrite H1 in H2; discriminate
         end.
  all: intuition (try discriminate; try congruence).
Qed.

Lemma lookup_snoc_cases sg (y : chan A) j c :
  (sg ++ [y]) !! j = Some c →
  (j < length sg)%nat ∧ sg !! j = Some c ∨ j = length sg ∧ c = y.
Proof.
  intros H. destruct (decide (j < length sg)%nat) as [Hlt|Hge].
  - left. by rewrite lookup_app_l in H.
  - right. rewrite lookup_app_r in H by lia.
    destruct (j - length sg)%nat as [|n] eqn:Hn; cbn in H; [|done].
    split; [lia | congruence].
Qed.

Lemma lookup_insert_cases sg i (x : chan A) j c :
  <[i := x]> sg !! j = Some c →
  j = i ∧ c = x ∧ (i < length sg)%nat ∨ j ≠ i ∧ sg !! j = Some c.
Proof.
  intros H. destruct (decide (j = i)) as [->|Hne].
  - left. pose proof (lookup_lt_Some _ _ _ H) as Hlt. rewrite length_insert in Hlt.
    rewrite list_lookup_insert_eq in H by done. split; [done|]. split; [congruence | done].
  - right. by rewrite list_lookup_insert_ne in H.
Qed.

(** Split the lookups in an updated list of channels into their cases. *)
Ltac lookups :=
  repeat match goal with
    | H : (_ ++ [_]) !! _ = Some _ |- _ =>
        apply lookup_snoc_cases in H as [[? H]|[? ?]]
    | H : <[_ := _]> _ !! _ = Some _ |- _ =>
        apply lookup_insert_cases in H as [(? & ? & ?)|[? H]]
    end; simplify_eq.

Ltac pcs :=
  repeat match goal with
    | H : sp ?x = _ |- _ => rewrite H in *
    | H : dr ?x = _ |- _ => rewrite H in *
    end.

(** Use what the invariant says of every channel that is looked up. *)
Ltac known He Hr :=
  repeat match goal with
    | H : segs _ !! _ = Some _ |- _ =>
        let E := fresh "E" in
        pose proof (He _ _ H) as [? E];
        pose proof (lookup_lt_Some _ _ _ H);
        try pose proof (Hr _ H);
        revert H
    end; intros.

Lemma each_step who s s' :
  control capacity s → segments capacity s → step capacity who s = Next s' →
  ∀ i ch, segs s' !! i = Some ch →
    1 ≤ cap ch
    ∧ (closed ch = true ↔ (S i < length (segs s'))%nat ∨ closing (sp s') = true).
Proof.
  intros Hc Hg Hstep i ch' Hi.
  pose proof (c_curr _ _ Hc) as Hcur.
  destruct who; turns Hstep; destruct Hg as [_ He Hr]; pcs; cbn in *.
  all: try (by apply He).
  all: lookups; rewrite ?length_app, ?length_insert;
       cbn [length closing cap closed make push pop close].
  all: known He Hr.
  all: try match goal with
         | H : segs _ = [] |- _ => apply (f_equal length) in H; cbn in H
         end.
  all: try (split; [try divlia | intuition (try discriminate; try lia)]; fail).
  all: split; [done|].
  all: match goal with E : closed _ = true ↔ _ |- _ => rewrite E end.
  all: intuition (try discriminate; try lia).
Qed.

Lemma room_step who s s' :
  control capacity s → segments capacity s → step capacity who s = Next s' →
  ∀ ch, segs s' !! currCh s' = Some ch →
    match sp s' with
    | SShrinkLen _ => len ch < Z.quot (cap ch) 2
    | SShrinkCap _ => len ch < Z.quot (cap ch) 2 ∧ capacity < Z.quot (cap ch) 2
    | SSend _ => len ch < cap ch
    | SPushGrown _ => buf ch = [] ∧ 2 ≤ cap ch
    | SPushShrunk _ => buf ch = []
    | _ => True
    end.
Proof.
  intros Hc Hg Hstep ch' Hi.
  pose proof (c_curr _ _ Hc) as Hcur.
  destruct who; turns Hstep; destruct Hg as [_ He Hr]; pcs; cbn in *.
  all: try done.
  all: try (by apply Hr).
  all: lookups; rewrite ?length_app, ?length_insert in *;
       cbn [length closing cap closed make push pop close buf] in *.
  all: known He Hr.
  all: unfold len in *; cbn [length closing cap closed make push pop close buf] in *.
  all: try (repeat case_match; simplify_eq; cbn [length tail] in *;
            (done || lia || divlia || (split; (done || divlia))); fail).
  all: destruct_and?;
       repeat match goal with H : buf _ = _ |- _ => rewrite H in * end;
       cbn [length tail] in *.
  all: try (done || divlia || (split; (done || divlia))).
  all: destruct (sp s); destruct_and?; try (done || lia || (split; (done || lia))).
Qed.

Lemma queue_step who s s' :
  control capacity s → segments capacity s → step capacity who s = Next s' →
  ∃ k : nat,
    buf (channels s') = seq k (length (buf (channels s')))
    ∧ (k + length (buf (channels s')))%nat = pushed s'
    ∧ match held (dr s') with
      | Some r => S r = k
      | None => True
      end
    ∧ ∀ i ch, segs s' !! i = Some ch →
              (i + (if held (dr s') is Some _ then 1 else 0) < k)%nat →
              buf ch = [] ∧ closed ch = true.
Proof.
  intros Hc Hg Hstep.
  pose proof (c_curr _ _ Hc) as Hcur.
  destruct who; turns Hstep;
    destruct Hg as [(k & Hq & Hk & Hh & Hd) He Hr];
    unfold pushed in *; pcs; cbn in *.
  all: first [ match goal with
               | H : buf (channels _) = _ :: _ |- _ => exists (S k)
               end
             | exists k ].
  all: rewrite ?length_app, ?length_insert in *; cbn [length] in *.
  all: try (split; [done|]; split; [lia|]; split; [done|]; exact Hd).
  all: try match goal with
         | H : segs _ = [] |- _ => apply (f_equal length) in H; cbn in H
         end.
  all: try match goal with
         | H : buf (channels _) = _ :: _ |- _ =>
             rewrite H in Hq, Hk |- *; cbn [length seq tail] in Hq, Hk |- *;
             injection Hq as -> Hq
         end.
  all: split; [first [ done
                     | rewrite Nat.add_1_r, seq_S, <- Hq; do 2 f_equal; lia
                     | exact Hq ] |].
  all: split; [lia|].
  all: split; [try done|].
  all: try (intros i ch' Hi Hlt; lookups; cbn [buf closed make close push pop] in *).
  all: try (eapply Hd; [eassumption | first [assumption | lia]]; fail).
  all: repeat match goal with
         | H : segs _ !! _ = Some _ |- _ =>
             pose proof (lookup_lt_Some _ _ _ H); revert H
         end; intros.
  all: rewrite ?length_insert in *.
  all: try (exfalso; lia).
  all: try (exfalso; destruct (held (dr s)); lia).
  all: try match goal with
         | H : segs _ !! ?j = Some ?c, L : (?j + _ < _)%nat |- _ =>
             destruct (Hd _ _ H L); first [congruence | done]
         end.
  destruct (decide (i = r)) as [->|Hne].
  - by simplify_eq.
  - apply (Hd i); [done | lia].
Qed.

Lemma segments_init : segments capacity (init capacity input).
Proof.
  constructor; cbn.
  - exists 0%nat. repeat split; try done.
  - intros i ch H. by rewrite lookup_nil in H.
  - done.
Qed.

Lemma segments_step who s s' :
  control capacity s → segments capacity s → step capacity who s = Next s' →
  segments capacity s'.
Proof.
  intros Hc Hg Hstep. constructor.
  - by eapply queue_step.
  - by eapply each_step.
  - by eapply room_step.
Qed.

(** What the channels made so far hold, oldest first. *)
Lemma bufs_snoc sg (c : Z) :
  concat (map buf (sg ++ [make c])) = concat (map (buf (T := A)) sg).
Proof. rewrite map_app, concat_app. cbn. by rewrite !app_nil_r. Qed.

Lemma bufs_same sg i (ch ch' : chan A) :
  sg !! i = Some ch → buf ch' = buf ch →
  map buf (<[i := ch']> sg) = map buf sg.
Proof.
  intros Hi Hb. change (buf <$> <[i := ch']> sg = buf <$> sg).
  rewrite list_fmap_insert, Hb. apply list_insert_id.
  by rewrite list_lookup_fmap, Hi.
Qed.

Lemma bufs_push_last sg i (ch : chan A) e :
  S i = length sg → sg !! i = Some ch →
  concat (map buf (<[i := push ch e]> sg)) = concat (map buf sg) ++ [e].
Proof.
  intros Hlen Hi.
  assert (sg = take i sg ++ [ch]) as Hsg.
  { rewrite <- (take_drop_middle sg i ch Hi) at 1.
    by rewrite drop_ge by lia. }
  rewrite Hsg at 1 2.
  rewrite insert_app_r_alt by (rewrite length_take; lia).
  rewrite length_take, Nat.min_l, Nat.sub_diag by lia. cbn [insert list_insert].
  rewrite !map_app, !concat_app. cbn. by rewrite !app_nil_r, app_assoc.
Qed.

Lemma bufs_empty sg :
  (∀ i (c : chan A), sg !! i = Some c → buf c = []) → concat (map buf sg) = [].
Proof.
  induction sg as [|c sg IH]; intros H; [done|]. cbn.
  rewrite (H 0%nat c eq_refl). cbn. apply IH. intros i c' Hi. by apply (H (S i)).
Qed.

Lemma bufs_pop sg r (ch : chan A) v rest :
  sg !! r = Some ch → buf ch = v :: rest →
  (∀ i c, sg !! i = Some c → (i < r)%nat → buf c = []) →
  concat (map buf sg) = v :: concat (map buf (<[r := pop ch]> sg)).
Proof.
  intros Hr Hb Hbefore.
  pose proof (lookup_lt_Some _ _ _ Hr) as Hlt.
  rewrite insert_take_drop by done.
  rewrite <- (take_drop_middle sg r ch Hr) at 1.
  rewrite !map_app, !concat_app. cbn [map concat].
  rewrite bufs_empty.
  - cbn. by rewrite Hb.
  - intros i c Hi. pose proof (lookup_lt_Some _ _ _ Hi) as Hi'.
    rewrite length_take in Hi'. rewrite lookup_take_lt in Hi by lia.
    apply (Hbefore i c Hi). lia.
Qed.

Lemma conserved_init : conserved input (init capacity input).
Proof. reflexivity. Qed.

Lemma conserved_step who s s' :
  control capacity s → segments capacity s → conserved input s →
  step capacity who s = Next s' → conserved input s'.
Proof.
  intros Hc Hg Hcons Hstep.
  pose proof (c_curr _ _ Hc) as Hcur.
  destruct Hg as [(k & Hq & Hk & Hh & Hd) He Hr].
  clear Hq Hk He Hr. unfold conserved, inflight in *.
  destruct who; turns Hstep; pcs; cbn in *.
  all: repeat match goal with
         | H : buf _ = _ |- _ => rewrite H in *
         end; cbn [tail app heldBySplitter heldByDrainer] in *.
  all: rewrite ?bufs_snoc.
  all: try (erewrite bufs_same by (eassumption || reflexivity)).
  all: try done.
  all: try (erewrite bufs_push_last by (eassumption || done)).
  all: try (erewrite (bufs_pop (segs s)); [| eassumption | eassumption |]).
  all: rewrite <- ?app_assoc; cbn [app]; try done.
  intros i ch Hi Hlt. apply (Hd i ch Hi). lia.
Qed.

Lemma invariant_init : invariant capacity input (init capacity input).
Proof.
  split; [apply control_init|]. split; [apply segments_init | apply conserved_init].
Qed.

Lemma invariant_step who s s' :
  invariant capacity input s → step capacity who s = Next s' →
  invariant capacity input s'.
Proof.
  intros (Hc & Hg & Hcons) Hstep. split; [|split].
  - by eapply control_step.
  - by eapply segments_step.
  - by eapply conserved_step.
Qed.

Lemma invariant_reachable s :
  reachable capacity input s → invariant capacity input s.
Proof.
  induction 1 as [|s who s' _ IH Hstep]; [apply invariant_init|].
  by eapply invariant_step.
Qed.

Lemma bufs_length_insert sg i (ch ch' : chan A) :
  sg !! i = Some ch →
  (length (concat (map buf (<[i := ch']> sg))) + length (buf ch)
   = length (concat (map buf sg)) + length (buf ch'))%nat.
Proof.
  intros Hi. pose proof (lookup_lt_Some _ _ _ Hi) as Hlt.
  rewrite insert_take_drop by done.
  rewrite <- (take_drop_middle sg i ch Hi) at 3.
  rewrite !map_app, !concat_app. cbn [map concat].
  rewrite !length_app. lia.
Qed.

(** Every turn that moves on uses up some of the budget. *)
Lemma budget_step who s s' :
  step capacity who s = Next s' → (budget s' < budget s)%nat.
Proof.
  intros Hstep. unfold budget.
  destruct who; turns Hstep; pcs; cbn.
  all: repeat match goal with
         | H : buf _ = _ |- _ => rewrite H in *
         end; cbn [tail length].
  all: rewrite ?bufs_snoc, ?length_app; cbn [length].
  all: repeat match goal with
         | H : segs ?s !! ?i = Some ?c
           |- context [concat (map buf (<[?i := ?c']> (segs ?s)))] =>
             pose proof (bufs_length_insert (segs s) i c c' H); revert H
         end; intros.
  all: cbn [buf push pop close tail length] in *.
  all: repeat match goal with
         | H : buf _ = _ |- _ => rewrite H in *
         end; cbn [tail length] in *.
  all: rewrite ?length_app in *; cbn [length] in *.
  all: repeat match goal with
         | H : closed _ = _ |- _ => rewrite H in *
         end.
  all: lia.
Qed.

(** The current channel exists, and it is open until the first goroutine
    closes it at the end. *)
Lemma current_open s :
  invariant capacity input s → sp s ≠ SMake →
  ∃ ch, segs s !! currCh s = Some ch
        ∧ 1 ≤ cap ch
        ∧ (closing (sp s) = false → closed ch = false).
Proof.
  intros (Hc & Hg & _) Hsp.
  pose proof (c_curr _ _ Hc) as Hcur.
  assert (S (currCh s) = length (segs s)) as Hlen by (by destruct (sp s)).
  destruct (lookup_lt_is_Some_2 (segs s) (currCh s)) as [ch Hch]; [lia|].
  exists ch. split; [done|].
  destruct (g_each _ _ Hg _ _ Hch) as [Hcap Hcl]. split; [done|].
  intros Hclosing. destruct (closed ch) eqn:E; [|done].
  destruct Hcl as [Hcl _]. destruct (Hcl eq_refl) as [E'|E']; [lia | congruence].
Qed.

(** The channel the second goroutine ranges over exists. *)
Lemma held_exists s r :
  invariant capacity input s → held (dr s) = Some r →
  ∃ ch, segs s !! r = Some ch.
Proof.
  intros (Hc & Hg & _) Hr.
  destruct (g_queue _ _ Hg) as (k & Hq & Hk & Hh & _).
  rewrite Hr in Hh. unfold pushed in Hk.
  apply lookup_lt_is_Some_2. lia.
Qed.

(** No turn panics: no send on a closed channel, no second close. *)
Lemma no_panic who s :
  invariant capacity input s → step capacity who s ≠ Panic.
Proof.
  intros Hinv Hstep. pose proof Hinv as (Hc & Hg & _).
  destruct Hc.
  destruct who; cbn [step] in Hstep.
  - unfold sender in Hstep.
    destruct (toSend s) eqn:Hts; [by destruct (closed (inputCh s))|].
    destruct (closed (inputCh s)) eqn:Hcl; [|by destruct (_ <? _)].
    discriminate (c_sent0 eq_refl).
  - destruct (sp s) eqn:Hsp; unfold splitterTurn, pushCurr, replaceCurr in Hstep;
      rewrite Hsp in Hstep; try discriminate.
    all: try (destruct (current_open s Hinv) as (ch & Hch & _ & Hopen);
              [congruence|]; rewrite Hsp in Hopen; rewrite Hch in Hstep;
              rewrite ?Hopen in Hstep by done).
    all: repeat (match type of Hstep with
                 | context [match ?x with _ => _ end] => destruct x eqn:?
                 end; try discriminate).
    all: intuition congruence.
  - destruct (dr s) eqn:Hdr; unfold drainerTurn in Hstep; rewrite Hdr in Hstep;
      try discriminate.
    + by repeat case_match.
    + destruct (held_exists s r Hinv) as [ch Hch]; [by rewrite Hdr|].
      rewrite Hch in Hstep. by repeat case_match.
    + destruct (closed (outputCh s)) eqn:Hcl; [|by destruct (_ <? _)].
      intuition congruence.
    + destruct (closed (outputCh s)) eqn:Hcl; [|done].
      intuition congruence.
  - unfold reader in Hstep. by destruct (buf (outputCh s)).
Qed.

(** Once [outputCh] is closed, everything sent has been emitted on it. *)
Lemma output_closed s :
  invariant capacity input s → closed (outputCh s) = true →
  received s ++ buf (outputCh s) = input.
Proof.
  intros (Hc & Hg & Hcons) Hcl. destruct Hc.
  apply c_output_closed0 in Hcl. rewrite Hcl in *.
  destruct c_drained0 as [Hch Hq]. apply c_channels_closed0 in Hch.
  rewrite Hch in *. destruct c_range_over0 as [Hin Hbuf].
  destruct (g_queue _ _ Hg) as (k & _ & Hk & _ & Hd).
  unfold pushed in Hk. rewrite Hq, Hch, Hcl in *. cbn in Hk, Hd.
  unfold conserved, inflight in Hcons.
  rewrite Hcl, Hch, Hbuf, (c_sent0 Hin) in Hcons. cbn in Hcons.
  rewrite bufs_empty in Hcons; [by rewrite !app_nil_r in Hcons|].
  intros i c Hi. apply (Hd i c Hi).
  pose proof (lookup_lt_Some _ _ _ Hi). lia.
Qed.

(** While [channels] is open and empty, the first goroutine or the sender
    can take a turn. *)
Lemma splitter_moves s :
  invariant capacity input s →
  closed (channels s) = false → buf (channels s) = [] →
  ∃ who s', step capacity who s = Next s'.
Proof.
  intros Hinv Hopen Hempty. pose proof Hinv as (Hc & Hg & _).
  pose proof (no_panic Splitter s Hinv) as Hnp.
  destruct (step capacity Splitter s) as [s'| |] eqn:Hstep;
    [by exists Splitter, s' | | done].
  destruct Hc. cbn [step] in Hstep.
  destruct (sp s) eqn:Hsp; unfold splitterTurn, pushCurr, replaceCurr in Hstep;
    rewrite Hsp in Hstep; try discriminate.
  all: try (unfold len in Hstep; rewrite Hopen, Hempty, c_channels0 in Hstep;
            discriminate).
  all: try (destruct (current_open s Hinv) as (ch & Hch & Hcap & Hcl);
            [congruence|]; rewrite Hsp in Hcl; rewrite Hch in Hstep;
            rewrite ?Hcl in Hstep by done).
  all: try discriminate.
  all: try (repeat (match type of Hstep with
                    | context [match ?x with _ => _ end] => destruct x eqn:?
                    end; try discriminate); fail).
  - (* the range over inputCh waits for the sender *)
    destruct (buf (inputCh s)) eqn:Hb; [|discriminate].
    destruct (closed (inputCh s)) eqn:Hcl; [discriminate|].
    exists Sender. cbn [step]. unfold sender, len. rewrite Hcl, Hb, c_input0.
    destruct (toSend s); [eexists; reflexivity|].
    assert ((0 <? capacity) = true) as E by (apply Z.ltb_lt; lia).
    cbn [length]. change (Z.of_nat 0) with 0. rewrite E. eexists; reflexivity.
  - (* the send on the current channel has room *)
    pose proof (g_room _ _ Hg _ Hch) as Hroom. rewrite Hsp in Hroom.
    destruct (len ch <? cap ch) eqn:E; [discriminate | lia].
  - (* channels is closed only when the first goroutine is done *)
    destruct c_channels_closed0 as [_ Hd]. rewrite (Hd eq_refl) in Hopen. discriminate.
Qed.

(** Until [outputCh] is closed and read to the end, some turn moves
    on. *)
Lemma progress s :
  invariant capacity input s →
  finished s ∨ ∃ who s', step capacity who s = Next s'.
Proof.
  intros Hinv. pose proof Hinv as (Hc & Hg & _).
  destruct (buf (outputCh s)) as [|v out] eqn:Hout.
  2: { right. exists Reader. cbn [step]. unfold reader. rewrite Hout.
       eexists; reflexivity. }
  pose proof (no_panic Drainer s Hinv) as Hnp.
  destruct (step capacity Drainer s) as [s'| |] eqn:Hstep;
    [right; by exists Drainer, s' | | done].
  destruct Hc. cbn [step] in Hstep.
  destruct (dr s) eqn:Hdr; unfold drainerTurn in Hstep; rewrite Hdr in Hstep.
  - (* waiting for the next channel *)
    destruct (buf (channels s)) eqn:Hq; [|discriminate].
    destruct (closed (channels s)) eqn:Hcl; [discriminate|].
    right. by apply splitter_moves.
  - (* waiting on a channel that is empty and open: it is the current one *)
    destruct (held_exists s r Hinv) as [ch Hch]; [by rewrite Hdr|].
    rewrite Hch in Hstep.
    destruct (buf ch) eqn:Hb; [|discriminate].
    destruct (closed ch) eqn:Hcl; [discriminate|].
    destruct (g_each _ _ Hg _ _ Hch) as [_ Hiff].
    destruct (g_queue _ _ Hg) as (k & Hq & Hk & Hh & _).
    rewrite Hdr in Hh. cbn in Hh. unfold pushed in Hk.
    pose proof (lookup_lt_Some _ _ _ Hch) as Hlt.
    assert (¬ (S r < length (segs s))%nat ∧ closing (sp s) ≠ true) as [Hlast Hncl].
    { split; intros H; rewrite Hcl in Hiff; destruct Hiff as [_ Hiff];
        discriminate Hiff; auto. }
    right. apply splitter_moves; [done| |].
    + destruct (closed (channels s)) eqn:E; [|done].
      destruct c_channels_closed0 as [Hdone _]. rewrite (Hdone eq_refl) in Hncl.
      by destruct Hncl.
    + destruct (buf (channels s)); [done|]. cbn in Hk. lia.
  - (* the send on outputCh has room *)
    destruct (closed (outputCh s)); [discriminate|].
    assert ((0 <? capacity) = true) as E by (apply Z.ltb_lt; lia).
    unfold len in Hstep. rewrite Hout, c_output0 in Hstep. cbn [length] in Hstep.
    change (Z.of_nat 0) with 0 in Hstep. rewrite E in Hstep. discriminate.
  - by destruct (closed (outputCh s)).
  - left. split; [by apply c_output_closed0 | done].
Qed.

Lemma run_invariant schedule : ∀ s s',
  invariant capacity input s → run capacity schedule s = Some s' →
  invariant capacity input s'.
Proof.
  induction schedule as [|who rest IH]; intros s s' Hinv Hrun; cbn in Hrun.
  - by simplify_eq.
  - destruct (step capacity who s) as [s1| |] eqn:Hstep; [|by eapply IH|done].
    eapply IH; [|done]. by eapply invariant_step.
Qed.

Lemma run_reachable schedule : ∀ s s',
  reachable capacity input s → run capacity schedule s = Some s' →
  reachable capacity input s'.
Proof.
  induction schedule as [|who rest IH]; intros s s' Hs Hrun; cbn in Hrun.
  - by simplify_eq.
  - destruct (step capacity who s) as [s1| |] eqn:Hstep; [|by eapply IH|done].
    eapply IH; [|done]. by eapply reach_step.
Qed.

(** From every state of the invariant some schedule leads to the end:
    [outputCh] closed and read to the last event. *)
Lemma completes (n : nat) : ∀ s,
  (budget s < n)%nat → invariant capacity input s →
  ∃ schedule s', run capacity schedule s = Some s' ∧ finished s'.
Proof.
  induction n as [|n IH]; intros s Hn Hinv; [lia|].
  destruct (progress s Hinv) as [Hfin|(who & s1 & Hstep)].
  - exists [], s. by split.
  - destruct (IH s1) as (schedule & s' & Hrun & Hfin).
    + pose proof (budget_step who s s1 Hstep). lia.
    + by eapply invariant_step.
    + exists (who :: schedule), s'. split; [|done]. cbn. by rewrite Hstep.
Qed.

(** C2. In every state that an execution of [PipeChan] with a positive
    capacity can reach, whatever the schedule of the sender, the two
    goroutines and the reader: what the reader has read, followed by what
    is still in the pipe, oldest first, is the sequence that was sent (so
    nothing is lost, doubled or reordered); no turn panics; when
    [outputCh] is closed, what was read and what [outputCh] still holds is
    the whole sequence; when no turn can move on, [outputCh] is closed and
    the reader has read the whole sequence; every turn that moves on uses
    up some of a finite budget, so every execution ends; and some schedule
    from here ends with the whole sequence read. *)
Theorem C2_fifo_lossless (s : state (A := A)) :
  reachable capacity input s →
  received s ++ inflight s = input
  ∧ (∀ who, step capacity who s ≠ Panic)
  ∧ (closed (outputCh s) = true → received s ++ buf (outputCh s) = input)
  ∧ ((∀ who, step capacity who s = Blocked) → finished s ∧ received s = input)
  ∧ (∀ who s', step capacity who s = Next s' → (budget s' < budget s)%nat)
  ∧ (∃ schedule s', run capacity schedule s = Some s'
                    ∧ finished s' ∧ received s' = input).
Proof.
  intros Hreach. pose proof (invariant_reachable s Hreach) as Hinv.
  assert (∀ t, invariant capacity input t → finished t → received t = input) as Hend.
  { intros t Ht [Hcl Hbuf].
    pose proof (output_closed t Ht Hcl) as H. by rewrite Hbuf, app_nil_r in H. }
  split; [apply Hinv|]. split; [intros who; by apply no_panic|].
  split; [by apply output_closed|]. split; [|split].
  - intros Hblocked.
    destruct (progress s Hinv) as [Hfin|(who & s1 & Hstep)].
    + split; [done | by apply Hend].
    + rewrite Hblocked in Hstep. discriminate.
  - intros who s'. apply budget_step.
  - destruct (completes (S (budget s)) s) as (schedule & s' & Hrun & Hfin); [lia|done|].
    exists schedule, s'. split; [done|]. split; [done|].
    apply Hend; [|done]. by eapply run_invariant.
Qed.
End Facts.

Lemma C2_witness :
∃ schedule s',
  run 2 schedule (init 2 Fixture.burst) = Some s'
  ∧ finished s' ∧ received s' = Fixture.burst.
Proof.
destruct (C2_fifo_lossless 2 ltac:(lia) Fixture.burst (init 2 Fixture.burst)
            (reach_init 2 Fixture.burst))
  as (_ & _ & _ & _ & _ & H).
exact H.
Defined.
End PipeChanFacts.

(* ===================================================================== *)
(** * Further properties: the translator *)
(* ===================================================================== *)

Lemma isEventType_All_split (K : notify.Events) (event : Z) :
  isEventType (EventTypeAll K) event
  = isEventType (EventTypeCreate K) event
    || isEventType (EventTypeDelete K) event
    || isEventType (EventTypeWrite K) event
    || isEventType (EventTypeRename K) event.
Proof.
  unfold EventTypeAll, EventTypeCreate, EventTypeDelete, EventTypeWrite,
    EventTypeRename, notify.All. cbn [isEventType].
  rewrite !Z.land_lor_distr_r.
  destruct (Z.eqb_spec (Z.land event (notify.Create K)) 0) as [-> | Hc];
  destruct (Z.eqb_spec (Z.land event (notify.Remove K)) 0) as [-> | Hr];
  destruct (Z.eqb_spec (Z.land event (notify.Write K)) 0) as [-> | Hw];
  destruct (Z.eqb_spec (Z.land event (notify.Rename K)) 0) as [-> | Hn];
  cbn [negb orb]; rewrite ?Z.lor_0_l, ?Z.lor_0_r.
  all: try reflexivity.
  all: match goal with
       | |- (if negb (?x =? 0) then true else false) = true =>
           destruct (Z.eqb_spec x 0) as [H0|]; [exfalso | reflexivity]
       end.
  all: repeat match goal with
         | H : Z.lor _ _ = 0 |- _ => apply Z.lor_eq_0_iff in H as [? ?]
         end; congruence.
Qed.

(** X1. The mask [notify.All], the one that [Watch] subscribes with, matches an
    event exactly when one of the four event lists of the package does. *)
Theorem isEventType_All (K : notify.Events) (event : Z) :
  isEventType (EventTypeAll K) event
  = isEventType (EventTypeCreate K) event
    || isEventType (EventTypeDelete K) event
    || isEventType (EventTypeWrite K) event
    || isEventType (EventTypeRename K) event.
Proof. apply isEventType_All_split. Qed.

Section MoreTranslatorFacts.
Context {S : Type} {afs : Fs S}.
Variable GOOS : string.
Variable EvalSymlinks : string → string + error.
Variable VolumeName : string → string.
Variable normalize : string → string.
Variable K : notify.Events.
Variable now : string.
Variable IsIgnoredFile : string → bool.

Local Abbreviation eventPath c event := (eventPathOf GOOS EvalSymlinks VolumeName c event).
Local Abbreviation translate :=
  (notifyEventToEventInfo GOOS EvalSymlinks VolumeName normalize K now).
Local Abbreviation loop :=
  (forward GOOS EvalSymlinks VolumeName normalize K now IsIgnoredFile).

(** X2. A notification whose mask matches Remove and none of Create, Write and
    Rename is translated to a Remove event with no size and no folder flag,
    whatever the storage holds: no stat is made. *)
Theorem remove_is_translated_without_stat
    (c : FSClient S) (event : notify.EventInfo) :
  isEventType (EventTypeCreate K) (notify.Event event) = false →
  isEventType (EventTypeWrite K) (notify.Event event) = false →
  isEventType (EventTypeRename K) (notify.Event event) = false →
  isEventType (EventTypeDelete K) (notify.Event event) = true →
  ∀ storage : S,
    notifyEventToEventInfo GOOS EvalSymlinks VolumeName normalize K now
      (mkClient (RootPath c) storage) event
    = (common.mk now 0 false (normalize (eventPath c event)) common.EventRemove
                 (Some (RootPath c)), None).
Proof.
  intros Hc Hw Hr Hd storage. unfold notifyEventToEventInfo.
  cbn [RootPath]. by rewrite Hc, Hw, Hr, Hd.
Qed.

(** X3. A notification whose mask shares no bit with [notify.All], the mask
    that [Watch] subscribes with, is dropped: the translator answers the
    empty event and no error, and the loop of [Watch] sends nothing. *)
Theorem unsubscribed_event_is_dropped
    (c : FSClient S) (event : notify.EventInfo) :
  isEventType (EventTypeAll K) (notify.Event event) = false →
  translate c event = (common.empty, None) ∧ loop c event = Nothing.
Proof.
  rewrite isEventType_All_split. intros H.
  apply orb_false_elim in H as [H Hn]. apply orb_false_elim in H as [H Hw].
  apply orb_false_elim in H as [Hc Hr].
  assert (translate c event = (common.empty, None)) as Ht.
  { unfold notifyEventToEventInfo. by rewrite Hc, Hw, Hn, Hr. }
  split; [done|]. unfold forward. rewrite Ht.
  destruct (IsIgnoredFile _); [done|].
  by destruct (decide (common.empty ≠ common.empty)).
Qed.
End MoreTranslatorFacts.

Lemma remove_is_translated_without_stat_witness :
  notifyEventToEventInfo (afs := memMapFs "\") win Fixture.evalSymlinks
    Fixture.volumeName Fixture.normalizeWin Fixture.bits Fixture.clock
    (mkClient "c:\root" ∅) Fixture.removeReadme
  = (common.mk Fixture.clock 0 false "//docs/readme.txt" common.EventRemove
               (Some "c:\root"), None).
Proof.
  exact (remove_is_translated_without_stat (afs := memMapFs "\")
           win Fixture.evalSymlinks Fixture.volumeName Fixture.normalizeWin
           Fixture.bits Fixture.clock Fixture.client Fixture.removeReadme
           eq_refl eq_refl eq_refl eq_refl ∅).
Defined.

Lemma unsubscribed_event_is_dropped_witness :
  Fixture.translator Fixture.client (notify.mk 0x1000000 "c:\root\docs\readme.txt")
  = (common.empty, None)
  ∧ Fixture.loopBody Fixture.client (notify.mk 0x1000000 "c:\root\docs\readme.txt")
    = Nothing.
Proof.
  exact (unsubscribed_event_is_dropped (afs := memMapFs "\")
           win Fixture.evalSymlinks Fixture.volumeName Fixture.normalizeWin
           Fixture.bits Fixture.clock Fixture.isIgnoredFile Fixture.client
           (notify.mk 0x1000000 "c:\root\docs\readme.txt") eq_refl).
Defined.

(* ===================================================================== *)
(** * Further properties: the Path Normalizer *)
(* ===================================================================== *)

Section ReplaceByte.
Variables a b : ascii.

Local Abbreviation old := (String a EmptyString).
Local Abbreviation new := (String b EmptyString).

Lemma replaceAll_cons (f : nat) (c : ascii) (s : string) :
  strings.replaceAll (Datatypes.S f) (String c s) old new
  = String (if Ascii.eqb c a then b else c) (strings.replaceAll f s old new).
Proof.
  cbn [strings.replaceAll]. unfold strings.HasPrefix.
  cbn [String.prefix String.length strings.drop].
  destruct (ascii_dec a c) as [-> | Hne].
  - rewrite Ascii.eqb_refl. by destruct s.
  - destruct (Ascii.eqb_spec c a) as [-> | _]; [done|]. reflexivity.
Qed.

Lemma replaceAll_fuel (s : string) :
  ∀ f g, (String.length s ≤ f)%nat → (String.length s ≤ g)%nat →
    strings.replaceAll f s old new = strings.replaceAll g s old new.
Proof.
  induction s as [|c s IH]; intros f g Hf Hg.
  - destruct f, g; reflexivity.
  - cbn [String.length] in Hf, Hg.
    destruct f as [|f]; [lia|]. destruct g as [|g]; [lia|].
    rewrite !replaceAll_cons. f_equal. apply IH; lia.
Qed.

Lemma Replace_nil : strings.Replace "" old new = "".
Proof. reflexivity. Qed.

Lemma Replace_cons (c : ascii) (s : string) :
  strings.Replace (String c s) old new
  = String (if Ascii.eqb c a then b else c) (strings.Replace s old new).
Proof.
  unfold strings.Replace. cbn [String.length]. apply replaceAll_cons.
Qed.

Lemma Replace_clears (s : string) :
  a ≠ b → strings.containsByte (strings.Replace s old new) a = false.
Proof.
  intros Hab. induction s as [|c s IH]; [reflexivity|].
  rewrite Replace_cons. cbn [strings.containsByte]. rewrite IH.
  destruct (Ascii.eqb_spec c a) as [-> | Hca].
  - by destruct (Ascii.eqb_spec a b).
  - by destruct (Ascii.eqb_spec a c).
Qed.

Lemma Replace_keeps_clear (s : string) (x : ascii) :
  x ≠ b → strings.containsByte s x = false →
  strings.containsByte (strings.Replace s old new) x = false.
Proof.
  intros Hxb. induction s as [|c s IH]; [done|].
  rewrite Replace_cons. cbn [strings.containsByte].
  destruct (Ascii.eqb_spec x c) as [-> | Hxc]; [done|]. intros Hs.
  rewrite (IH Hs). destruct (Ascii.eqb c a).
  - by destruct (Ascii.eqb_spec x b).
  - by destruct (Ascii.eqb_spec x c).
Qed.
End ReplaceByte.

Lemma Replace_undo (a b : ascii) (s : string) :
  strings.containsByte s b = false →
  strings.Replace (strings.Replace s (String a "") (String b ""))
                  (String b "") (String a "") = s.
Proof.
  induction s as [|c s IH]; [reflexivity|].
  cbn [strings.containsByte]. destruct (Ascii.eqb_spec b c) as [-> | Hbc]; [done|].
  intros Hs. rewrite !Replace_cons, (IH Hs). f_equal.
  destruct (Ascii.eqb_spec c a) as [-> | Hca].
  - by rewrite Ascii.eqb_refl.
  - destruct (Ascii.eqb_spec c b) as [-> | _]; [done|]. reflexivity.
Qed.

Lemma TrimLeft_fixed (s cutset : string) :
  strings.TrimLeft (strings.TrimLeft s cutset) cutset = strings.TrimLeft s cutset.
Proof.
  induction s as [|c s IH]; [reflexivity|].
  cbn [strings.TrimLeft]. destruct (strings.containsByte cutset c) eqn:Hc; [done|].
  cbn [strings.TrimLeft]. by rewrite Hc.
Qed.

Lemma TrimLeft_clear_head (s cutset : string) :
  (∀ c s', s = String c s' → strings.containsByte cutset c = false) →
  strings.TrimLeft s cutset = s.
Proof.
  intros H. destruct s as [|c s]; [reflexivity|].
  cbn [strings.TrimLeft]. by rewrite (H c s eq_refl).
Qed.

Lemma HasPrefix_head (c : ascii) (s : string) :
  strings.HasPrefix (String c s) (String c "") = true.
Proof.
  unfold strings.HasPrefix. cbn [String.prefix].
  destruct (ascii_dec c c); [by destruct s | done].
Qed.

Lemma path_cons (p : string) : path p = String "/" (strings.TrimLeft p "/").
Proof. reflexivity. Qed.

(** X4. The closure [path] of [init] is idempotent, and its result begins with
    one slash that no second slash follows. *)
Theorem path_is_a_normal_form (p : string) :
  path (path p) = path p
  ∧ strings.HasPrefix (path p) "/" = true
  ∧ strings.HasPrefix (path p) "//" = false.
Proof.
  rewrite !path_cons. split; [|split].
  - change (strings.TrimLeft (String "/" ?x) "/") with (strings.TrimLeft x "/").
    by rewrite TrimLeft_fixed.
  - apply HasPrefix_head.
  - unfold strings.HasPrefix.
    cbn [String.prefix]. destruct (ascii_dec "/" "/") as [_|]; [|done].
    induction p as [|c p IH]; [reflexivity|].
    cbn [strings.TrimLeft strings.containsByte].
    destruct (Ascii.eqb_spec c "/") as [-> | Hc]; [exact IH|].
    cbn [String.prefix]. destruct (ascii_dec "/" c) as [<- |]; [done|]. reflexivity.
Qed.

(** X5. On Windows the canonical form of any path begins with a slash and holds
    no backslash, and the native form of any path begins with a backslash
    and holds no slash. *)
Theorem windows_forms_use_one_separator (NFC NFD : string → string) (p : string) :
  ∃ c n,
    toCanonical NFC NFD win p = Returns c
    ∧ strings.HasPrefix c "/" = true
    ∧ strings.containsByte c "\" = false
    ∧ toNative NFC NFD win p = Returns n
    ∧ strings.HasPrefix n "\" = true
    ∧ strings.containsByte n "/" = false.
Proof.
  exists (Fixture.normalizeWin p), (Fixture.denormalizeWin p).
  unfold Fixture.normalizeWin, Fixture.denormalizeWin. rewrite !path_cons.
  repeat split.
  - rewrite Replace_cons. apply HasPrefix_head.
  - by apply Replace_clears.
  - rewrite Replace_cons. apply HasPrefix_head.
  - by apply Replace_clears.
Qed.

(** X6. On Windows a native path that begins with one backslash, not followed
    by a second one, and that holds no slash, survives the round trip
    through its canonical form; that canonical form begins with two
    slashes. *)
Theorem windows_native_round_trip (NFC NFD : string → string) (r : string) :
  strings.containsByte r "/" = false →
  strings.HasPrefix r "\" = false →
  toCanonical NFC NFD win (String "\" r)
  = Returns (String "/" (String "/" (strings.Replace r "\" "/")))
  ∧ toNative NFC NFD win (String "/" (String "/" (strings.Replace r "\" "/")))
    = Returns (String "\" r).
Proof.
  intros Hslash Hhead.
  assert (strings.TrimLeft (strings.Replace r "\" "/") "/"
          = strings.Replace r "\" "/") as Htrim.
  { apply TrimLeft_clear_head. intros c s' Hr. destruct r as [|d r]; [done|].
    rewrite Replace_cons in Hr. injection Hr as <- _.
    cbn [strings.containsByte] in *.
    unfold strings.HasPrefix in Hhead. cbn [String.prefix] in Hhead.
    destruct (Ascii.eqb_spec d "\") as [-> | Hd].
    - destruct (ascii_dec "\" "\") as [_|]; [|done]. by destruct r.
    - destruct (Ascii.eqb_spec "/" d) as [<- | Hd']; [done|].
      destruct (Ascii.eqb_spec d "/") as [-> | _]; done. }
  split.
  - change (toCanonical NFC NFD win (String "\" r))
      with (Returns (Fixture.normalizeWin (String "\" r))).
    f_equal. unfold Fixture.normalizeWin. rewrite path_cons.
    cbn [strings.TrimLeft strings.containsByte Ascii.eqb Bool.eqb].
    by rewrite !Replace_cons.
  - change (toNative NFC NFD win ?q) with (Returns (Fixture.denormalizeWin q)).
    f_equal. unfold Fixture.denormalizeWin. rewrite path_cons.
    cbn [strings.TrimLeft strings.containsByte Ascii.eqb Bool.eqb].
    rewrite Htrim, Replace_cons. cbn [Ascii.eqb Bool.eqb]. f_equal.
    by apply Replace_undo.
Qed.

Lemma windows_native_round_trip_witness :
  toCanonical id id win "\docs\readme.txt" = Returns "//docs/readme.txt"
  ∧ toNative id id win "//docs/readme.txt" = Returns "\docs\readme.txt".
Proof.
  exact (windows_native_round_trip id id "docs\readme.txt" eq_refl eq_refl).
Defined.

(* ===================================================================== *)
(** * Further properties: the node operations *)
(* ===================================================================== *)

Lemma HasPrefix_refl (s : string) : strings.HasPrefix s s = true.
Proof.
  unfold strings.HasPrefix. induction s as [|c s IH]; [reflexivity|].
  cbn [String.prefix]. by destruct (ascii_dec c c).
Qed.

Section StatFailure.
Context {S : Type} {afs : Fs S} {files : FsFiles S}.
Variable sep : ascii.
Variable denormalize : string → string.
Variable md5hex : string → string.
Variable newV4 : string.

(** X7. How the node operations take a stat that fails for another reason than
    not-found, on any backend: [MoveNode] panics on the nil stat,
    [DeleteNode] goes on to [RemoveAll], [GetWriterOn] answers what [Open]
    answers, [CreateNode] of a collection does nothing and answers no
    error, and [LoadNode] without a leaf flag answers the error of the
    stat. *)
Theorem stat_failure_in_node_operations
    (c : FSClient S) (p q : string) (e : error) (n : tree.Node) (upd : bool) :
  Stat (FS c) (denormalize p) = inr e →
  IsNotExist (Some e) = false →
  tree.IsLeaf n = false →
  tree.Path n = p →
  MoveNode denormalize c p q
  = Panics "invalid memory address or nil pointer dereference"
  ∧ DeleteNode denormalize c p = RemoveAll (FS c) (denormalize p)
  ∧ GetWriterOn denormalize c p = (FS c, Open (FS c) (denormalize p))
  ∧ CreateNode sep denormalize c n upd = (FS c, None)
  ∧ LoadNode sep denormalize md5hex newV4 c p [] = Returns (FS c, (None, Some e)).
Proof.
  intros Hstat He Hleaf Hpath.
  unfold MoveNode, DeleteNode, GetWriterOn, CreateNode, LoadNode.
  rewrite Hleaf, Hpath, Hstat. cbn [errOf]. rewrite He. by cbn [negb].
Qed.
End StatFailure.

Lemma stat_failure_in_node_operations_witness :
  MoveNode (afs := deniedFs (memMapFs "\")) Fixture.denormalizeWin
    Fixture.client "/docs" "/papers"
  = Panics "invalid memory address or nil pointer dereference"
  ∧ DeleteNode (afs := deniedFs (memMapFs "\")) (files := memMapFiles)
      Fixture.denormalizeWin Fixture.client "/docs"
    = RemoveAll (FsFiles := memMapFiles) Fixture.storage "\docs"
  ∧ GetWriterOn (afs := deniedFs (memMapFs "\")) Fixture.denormalizeWin
      Fixture.client "/docs"
    = (Fixture.storage, inl (mkFile "\docs" true))
  ∧ CreateNode (afs := deniedFs (memMapFs "\")) "\" Fixture.denormalizeWin
      Fixture.client (Fixture.collection "/docs" "id") false
    = (Fixture.storage, None)
  ∧ LoadNode (afs := deniedFs (memMapFs "\")) (files := memMapFiles)
      "\" Fixture.denormalizeWin id "id" Fixture.client "/docs" []
    = Returns (Fixture.storage, (None, Some ErrPermission)).
Proof.
  exact (stat_failure_in_node_operations (afs := deniedFs (memMapFs "\"))
           (files := memMapFiles) "\" Fixture.denormalizeWin id "id"
           Fixture.client "/docs" "/papers" ErrPermission
           (Fixture.collection "/docs" "id") false
           eq_refl eq_refl eq_refl eq_refl).
Defined.

Section MemoryNodeFacts.
Variable sep : ascii.
Variable denormalize : string → string.
Variable md5hex : string → string.
Implicit Types (m : gmap string mem.FileData).

Local Abbreviation marker p := (filepath.Join sep p ".__pydio").

(** X8. Moving a file on the in-memory backend, between cleaned names, in a
    table made by creations only: the entry is found under the new name
    with its content, the old name is free, and every name that is
    neither of the two nor above the new name is as it was. *)
Theorem MoveNode_moves_a_file root m (oldPath newPath : string) (d : mem.FileData) :
  built sep m →
  filepath.cleaned sep (denormalize oldPath) = true →
  filepath.cleaned sep (denormalize newPath) = true →
  m !! denormalize oldPath = Some d →
  mem.dir d = false →
  denormalize oldPath ≠ denormalize newPath →
  denormalize oldPath ∉ filepath.ancestors sep (denormalize newPath) →
  ∃ m1,
    MoveNode (afs := memMapFs sep) denormalize (mkClient root m) oldPath newPath
    = Returns (m1, None)
    ∧ m1 !! denormalize newPath = Some d
    ∧ m1 !! denormalize oldPath = None
    ∧ ∀ x, x ≠ denormalize oldPath → x ≠ denormalize newPath →
           x ∉ filepath.ancestors sep (denormalize newPath) →
           m1 !! x = m !! x.
Proof.
  intros _ _ _ Ho Hd Hne Hanc.
  exists (fst (MemMapFs.Rename sep m (denormalize oldPath) (denormalize newPath))).
  split; [|split; [|split]].
  - unfold MoveNode. cbn [FS Stat memMapFs]. unfold MemMapFs.Stat. rewrite Ho.
    unfold MemMapFs.info. cbn [FileInfo.IsDir]. rewrite Hd.
    cbn [andb Rename memMapFs FS]. unfold MemMapFs.Rename.
    apply String.eqb_neq in Hne. rewrite Hne, Ho. reflexivity.
  - by apply Rename_destination.
  - by apply (Rename_source sep m _ _ d).
  - intros x Hxo Hxn Hx. by apply (Rename_frame sep m _ _ d).
Qed.

Lemma CreateNode_fresh root m (n : tree.Node) (upd : bool) :
  tree.IsLeaf n = false →
  tree.Uuid n ≠ "" →
  m !! denormalize (tree.Path n) = None →
  ∃ m1,
    CreateNode (afs := memMapFs sep) sep denormalize (mkClient root m) n upd
    = (m1, None)
    ∧ isDirIn m1 (denormalize (tree.Path n)) = true
    ∧ mem.data <$> (m1 !! marker (denormalize (tree.Path n))) = Some (tree.Uuid n).
Proof.
  intros Hleaf Huuid Habsent.
  set (fPath := denormalize (tree.Path n)) in *.
  set (m0 := MemMapFs.registerWithParent sep (<[fPath := mem.CreateDir]> m) fPath).
  exists (fst (MemMapFs.WriteFile sep m0 (marker fPath) (tree.Uuid n))).
  split; [|split].
  - unfold CreateNode. rewrite Hleaf. cbn [FS Stat memMapFs MkdirAll WriteFile].
    fold fPath. unfold MemMapFs.Stat. rewrite Habsent. cbn [errOf IsNotExist].
    rewrite MkdirAll_absent by done. fold m0.
    apply String.eqb_neq in Huuid. by rewrite Huuid.
  - apply WriteFile_keeps_dir, registerChain_keeps_dir.
    unfold isDirIn. by rewrite lookup_insert_eq.
  - apply WriteFile_data.
Qed.

(** X9. Creating a collection under a cleaned name on the in-memory
    backend, in a table made by creations only, and then creating or
    updating it again with any other identifier: the second call changes
    nothing and answers no error, so the marker file keeps the first
    identifier. *)
Theorem CreateNode_twice_keeps_the_first_identifier
    root m (n n' : tree.Node) (upd upd' : bool) :
  built sep m →
  filepath.cleaned sep (denormalize (tree.Path n)) = true →
  tree.IsLeaf n = false →
  tree.IsLeaf n' = false →
  tree.Path n' = tree.Path n →
  tree.Uuid n ≠ "" →
  m !! denormalize (tree.Path n) = None →
  ∃ m1,
    CreateNode (afs := memMapFs sep) sep denormalize (mkClient root m) n upd
    = (m1, None)
    ∧ CreateNode (afs := memMapFs sep) sep denormalize (mkClient root m1) n' upd'
      = (m1, None)
    ∧ UpdateNode (afs := memMapFs sep) sep denormalize (mkClient root m1) n'
      = (m1, None)
    ∧ mem.data <$> (m1 !! marker (denormalize (tree.Path n))) = Some (tree.Uuid n).
Proof.
  intros _ _ Hleaf Hleaf' Hpath Huuid Habsent.
  destruct (CreateNode_fresh root m n upd Hleaf Huuid Habsent)
    as (m1 & Hfirst & Hdir & Hdata).
  assert (∀ u, CreateNode (afs := memMapFs sep) sep denormalize (mkClient root m1) n' u
               = (m1, None)) as Hsecond.
  { intros u. unfold CreateNode. rewrite Hleaf', Hpath. cbn [FS Stat memMapFs].
    unfold MemMapFs.Stat. unfold isDirIn in Hdir.
    by destruct (m1 !! denormalize (tree.Path n)). }
  exists m1. split; [done|]. split; [apply Hsecond|]. split; [apply Hsecond|done].
Qed.

(** X10. [DeleteNode] of a cleaned name on the in-memory backend, in a
    table made by creations only: the call answers no error; afterwards
    the path is free, every entry whose name does not begin with the path
    is as it was, and deleting again changes nothing. *)
Theorem DeleteNode_on_memory_backend root m (p : string) :
  built sep m →
  filepath.cleaned sep (denormalize p) = true →
  ∃ m1,
    DeleteNode (afs := memMapFs sep) (files := memMapFiles) denormalize
      (mkClient root m) p = (m1, None)
    ∧ m1 !! denormalize p = None
    ∧ (∀ k, strings.HasPrefix k (denormalize p) = false → m1 !! k = m !! k)
    ∧ DeleteNode (afs := memMapFs sep) (files := memMapFiles) denormalize
        (mkClient root m1) p = (m1, None).
Proof.
  intros _ _.
  assert (∀ m', m' !! denormalize p = None →
    DeleteNode (afs := memMapFs sep) (files := memMapFiles) denormalize
      (mkClient root m') p = (m', None)) as Habsent.
  { intros m' H. unfold DeleteNode. cbn [FS Stat memMapFs].
    unfold MemMapFs.Stat. by rewrite H. }
  destruct (m !! denormalize p) as [d|] eqn:Hp.
  - set (m1 := filter (λ kv : string * mem.FileData,
                         strings.HasPrefix kv.1 (denormalize p) = false) m).
    assert (m1 !! denormalize p = None) as Hgone.
    { apply map_lookup_filter_None. right. intros x _. cbn [fst].
      by rewrite HasPrefix_refl. }
    exists m1. split; [|split; [done|split; [|by apply Habsent]]].
    + unfold DeleteNode. cbn [FS Stat memMapFs RemoveAll memMapFiles].
      unfold MemMapFs.Stat. by rewrite Hp.
    + intros k Hk. destruct (m !! k) as [x|] eqn:Hmk.
      * by apply map_lookup_filter_Some.
      * apply map_lookup_filter_None. by left.
  - exists m. split; [by apply Habsent|]. split; [done|].
    split; [done | by apply Habsent].
Qed.

(** X11. The identifier of a folder with a cleaned name on the in-memory
    backend, in a table made by creations only, is stable: the first call
    answers the content of the marker file, or the fresh
    identifier when there is none and then writes it; any later call, with
    whatever fresh identifier at hand, answers the same one and changes
    nothing. No call panics. *)
Theorem folder_identifier_is_stable root m (p u u' : string) :
  built sep m →
  filepath.cleaned sep p = true →
  ∃ m1 uid,
    readOrCreateFolderId (afs := memMapFs sep) (files := memMapFiles) sep u
      (mkClient root m) p = Returns (m1, (uid, None))
    ∧ readOrCreateFolderId (afs := memMapFs sep) (files := memMapFiles) sep u'
        (mkClient root m1) p = Returns (m1, (uid, None))
    ∧ match m !! marker p with
      | Some d => uid = mem.data d ∧ m1 = m
      | None => uid = u
      end.
Proof.
  intros _ _.
  assert (∀ m' d v, m' !! marker p = Some d →
    readOrCreateFolderId (afs := memMapFs sep) (files := memMapFiles) sep v
      (mkClient root m') p = Returns (m', (mem.data d, None))) as Hread.
  { intros m' d v H. unfold readOrCreateFolderId.
    cbn [FS OpenFile ReadFile memMapFiles]. unfold MemMapFs.Open. by rewrite H. }
  destruct (m !! marker p) as [d|] eqn:Hm.
  - exists m, (mem.data d). split; [by apply Hread|]. split; [by apply Hread|done].
  - set (m1 := fst (MemMapFs.WriteFile sep m (marker p) u)).
    exists m1, u. split; [|split; [|done]].
    + unfold readOrCreateFolderId.
      cbn [FS OpenFile ReadFile memMapFiles WriteFile memMapFs].
      unfold MemMapFs.Open. rewrite Hm. cbn [IsNotExist].
      unfold m1, MemMapFs.WriteFile. by rewrite Hm.
    + pose proof (WriteFile_data sep m (marker p) u) as Hdata. fold m1 in Hdata.
      destruct (m1 !! marker p) as [d|] eqn:Hm1; [|done].
      cbn in Hdata. injection Hdata as <-. by apply Hread.
Qed.

(** X12. Create and load: a collection created with an identifier under a
    cleaned name on the in-memory backend, in a table made by creations
    only, is loaded as a collection with that identifier, an
    empty [Etag] and the stat of a directory, and loading changes
    nothing. *)
Theorem CreateNode_then_LoadNode root m (n : tree.Node) (upd : bool) (u : string) :
  built sep m →
  filepath.cleaned sep (denormalize (tree.Path n)) = true →
  tree.IsLeaf n = false →
  tree.Uuid n ≠ "" →
  m !! denormalize (tree.Path n) = None →
  ∃ m1,
    CreateNode (afs := memMapFs sep) sep denormalize (mkClient root m) n upd
    = (m1, None)
    ∧ LoadNode (afs := memMapFs sep) (files := memMapFiles) sep denormalize md5hex u
        (mkClient root m1) (tree.Path n) []
      = Returns (m1,
                 (Some (mkLoaded
                          (tree.mk (tree.Path n) tree.NodeType_COLLECTION (tree.Uuid n))
                          "" (Some (FileInfo.mk 42 true))),
                  None)).
Proof.
  intros _ _ Hleaf Huuid Habsent.
  destruct (CreateNode_fresh root m n upd Hleaf Huuid Habsent)
    as (m1 & Hfirst & Hdir & Hdata).
  exists m1. split; [done|].
  unfold LoadNode. cbn [FS Stat memMapFs]. unfold MemMapFs.Stat.
  unfold isDirIn in Hdir.
  destruct (m1 !! denormalize (tree.Path n)) as [d|] eqn:Hd; [|done].
  unfold MemMapFs.info. rewrite Hdir. cbn [FileInfo.IsDir negb].
  unfold getNodeIdentifier, readOrCreateFolderId.
  cbn [FS OpenFile ReadFile memMapFiles]. unfold MemMapFs.Open.
  destruct (m1 !! marker (denormalize (tree.Path n))) as [d'|] eqn:Hd'; [|done].
  cbn in Hdata. injection Hdata as ->. reflexivity.
Qed.
End MemoryNodeFacts.

Lemma MoveNode_moves_a_file_witness :
  ∃ m1,
    MoveNode (afs := memMapFs "\") Fixture.denormalizeWin
      (mkClient "c:\root" Fixture.storage) "/docs/readme.txt" "/a/readme.txt"
    = Returns (m1, None)
    ∧ m1 !! Fixture.denormalizeWin "/a/readme.txt" = Some (mem.mkData false "v2")
    ∧ m1 !! Fixture.denormalizeWin "/docs/readme.txt" = None.
Proof.
  assert (Fixture.storage !! Fixture.denormalizeWin "/docs/readme.txt"
          = Some (mem.mkData false "v2")) as Hold by (vm_compute; reflexivity).
  assert (Fixture.denormalizeWin "/docs/readme.txt"
          ≠ Fixture.denormalizeWin "/a/readme.txt") as Hne
    by (intros H; vm_compute in H; discriminate).
  assert (Fixture.denormalizeWin "/docs/readme.txt"
          ∉ filepath.ancestors "\" (Fixture.denormalizeWin "/a/readme.txt")) as Hanc
    by (intros H; apply list_elem_of_In in H; vm_compute in H; intuition discriminate).
  destruct (MoveNode_moves_a_file "\"%char Fixture.denormalizeWin "c:\root"
              Fixture.storage "/docs/readme.txt" "/a/readme.txt"
              (mem.mkData false "v2") Fixture_storage_built eq_refl eq_refl
              Hold eq_refl Hne Hanc)
    as (m1 & Hmove & Hnew & Hgone & _).
  exists m1. exact (conj Hmove (conj Hnew Hgone)).
Defined.

Lemma CreateNode_twice_keeps_the_first_identifier_witness :
  ∃ m1,
    CreateNode (afs := memMapFs "\") "\" Fixture.denormalizeWin
      (mkClient "c:\root" Fixture.storage) (Fixture.collection "/x/new" "id-1") false
    = (m1, None)
    ∧ CreateNode (afs := memMapFs "\") "\" Fixture.denormalizeWin
        (mkClient "c:\root" m1) (Fixture.collection "/x/new" "id-2") false
      = (m1, None)
    ∧ UpdateNode (afs := memMapFs "\") "\" Fixture.denormalizeWin
        (mkClient "c:\root" m1) (Fixture.collection "/x/new" "id-2")
      = (m1, None)
    ∧ mem.data <$> (m1 !! filepath.Join "\"
                      (Fixture.denormalizeWin
                         (tree.Path (Fixture.collection "/x/new" "id-1")))
                      ".__pydio")
      = Some (tree.Uuid (Fixture.collection "/x/new" "id-1")).
Proof.
  assert (Fixture.storage
          !! Fixture.denormalizeWin (tree.Path (Fixture.collection "/x/new" "id-1"))
          = None) as Habsent by (vm_compute; reflexivity).
  assert (tree.Uuid (Fixture.collection "/x/new" "id-1") ≠ "") as Hid by discriminate.
  exact (CreateNode_twice_keeps_the_first_identifier "\"%char Fixture.denormalizeWin
           "c:\root" Fixture.storage
           (Fixture.collection "/x/new" "id-1") (Fixture.collection "/x/new" "id-2")
           false false Fixture_storage_built eq_refl eq_refl eq_refl eq_refl
           Hid Habsent).
Defined.

Lemma CreateNode_then_LoadNode_witness :
  ∃ m1,
    CreateNode (afs := memMapFs "\") "\" Fixture.denormalizeWin
      (mkClient "c:\root" Fixture.storage) (Fixture.collection "/x/new" "id-1") false
    = (m1, None)
    ∧ LoadNode (afs := memMapFs "\") (files := memMapFiles) "\"
        Fixture.denormalizeWin id "fresh" (mkClient "c:\root" m1)
        (tree.Path (Fixture.collection "/x/new" "id-1")) []
      = Returns (m1,
                 (Some (mkLoaded
                          (tree.mk (tree.Path (Fixture.collection "/x/new" "id-1"))
                             tree.NodeType_COLLECTION
                             (tree.Uuid (Fixture.collection "/x/new" "id-1")))
                          "" (Some (FileInfo.mk 42 true))),
                  None)).
Proof.
  assert (Fixture.storage
          !! Fixture.denormalizeWin (tree.Path (Fixture.collection "/x/new" "id-1"))
          = None) as Habsent by (vm_compute; reflexivity).
  assert (tree.Uuid (Fixture.collection "/x/new" "id-1") ≠ "") as Hid by discriminate.
  exact (CreateNode_then_LoadNode "\"%char Fixture.denormalizeWin id
           "c:\root" Fixture.storage (Fixture.collection "/x/new" "id-1")
           false "fresh" Fixture_storage_built eq_refl eq_refl Hid Habsent).
Defined.


Lemma DeleteNode_on_memory_backend_witness :
  ∃ m1,
    DeleteNode (afs := memMapFs "\") (files := memMapFiles) Fixture.denormalizeWin
      (mkClient "c:\root" Fixture.storage) "/docs" = (m1, None)
    ∧ m1 !! Fixture.denormalizeWin "/docs" = None
    ∧ m1 !! "\a\b.txt" = Fixture.storage !! "\a\b.txt"
    ∧ DeleteNode (afs := memMapFs "\") (files := memMapFiles) Fixture.denormalizeWin
        (mkClient "c:\root" m1) "/docs" = (m1, None).
Proof.
  destruct (DeleteNode_on_memory_backend "\"%char Fixture.denormalizeWin "c:\root"
              Fixture.storage "/docs" Fixture_storage_built eq_refl)
    as (m1 & Hdel & Hgone & Hframe & Hagain).
  exists m1. split; [exact Hdel|]. split; [exact Hgone|].
  split; [|exact Hagain]. apply Hframe. reflexivity.
Defined.

Lemma folder_identifier_is_stable_witness :
  ∃ m1 uid,
    readOrCreateFolderId (afs := memMapFs "\") (files := memMapFiles) "\" "fresh-1"
      (mkClient "c:\root" Fixture.storage) "\docs" = Returns (m1, (uid, None))
    ∧ readOrCreateFolderId (afs := memMapFs "\") (files := memMapFiles) "\" "fresh-2"
        (mkClient "c:\root" m1) "\docs" = Returns (m1, (uid, None))
    ∧ match Fixture.storage !! filepath.Join "\" "\docs" ".__pydio" with
      | Some d => uid = mem.data d ∧ m1 = Fixture.storage
      | None => uid = "fresh-1"
      end.
Proof.
  exact (folder_identifier_is_stable "\"%char "c:\root" Fixture.storage
           "\docs" "fresh-1" "fresh-2" Fixture_storage_built eq_refl).
Defined.

Section WrittenContent.
Variable sep : ascii.
Variable denormalize : string → string.
Variable md5hex : string → string.

(** X13. Write and load: after the bytes [b] are written through the writer of
    an absent path with a cleaned name on the in-memory backend, in a table
    made by creations only, [LoadNode] answers a leaf
    whose [Etag] is the digest of [b] and whose size is the length of [b],
    with no identifier, and it changes nothing. *)
Theorem written_content_is_loaded
    root (m : gmap string mem.FileData) (p b u : string) :
  built sep m →
  filepath.cleaned sep (denormalize p) = true →
  m !! denormalize p = None →
  ∃ m1 f m2,
    GetWriterOn (afs := memMapFs sep) denormalize (mkClient root m) p = (m1, inl f)
    ∧ Write (Fs := memMapFs sep) m1 f b = (m2, (Z.of_nat (String.length b), None))
    ∧ LoadNode (afs := memMapFs sep) (files := memMapFiles) sep denormalize md5hex u
        (mkClient root m2) p []
      = Returns (m2,
                 (Some (mkLoaded (tree.mk p tree.NodeType_LEAF "") (md5hex b)
                          (Some (FileInfo.mk (Z.of_nat (String.length b)) false))),
                  None)).
Proof.
  intros _ _ Habsent.
  set (m1 := MemMapFs.registerWithParent sep
               (<[denormalize p := mem.CreateFile]> m) (denormalize p)).
  assert (m1 !! denormalize p = Some mem.CreateFile) as Hm1.
  { unfold m1, MemMapFs.registerWithParent.
    rewrite registerChain_other by apply ancestors_not_self.
    by rewrite lookup_insert_eq. }
  assert (∀ n, strings.drop n "" = "") as Hdrop by (by intros []).
  exists m1, (mkFile (denormalize p) false),
    (<[denormalize p := mem.mkData false b]> m1).
  split; [|split].
  - unfold GetWriterOn. cbn [FS Stat memMapFs Create].
    unfold MemMapFs.Stat. by rewrite Habsent.
  - cbn [Write memMapFs]. unfold MemMapFs.Write. cbn [readOnly fileName].
    rewrite Hm1. cbn [mem.dir mem.data mem.CreateFile].
    by rewrite Hdrop, append_nil_r.
  - unfold LoadNode. cbn [FS Stat memMapFs]. unfold MemMapFs.Stat.
    rewrite lookup_insert_eq. unfold MemMapFs.info.
    cbn [mem.dir mem.data FileInfo.IsDir negb].
    unfold getNodeIdentifier, getFileHash.
    cbn [FS Open memMapFs ReadFile memMapFiles]. unfold MemMapFs.Open.
    rewrite lookup_insert_eq. cbn [fileName]. by rewrite lookup_insert_eq.
Qed.
End WrittenContent.

Lemma written_content_is_loaded_witness :
  ∃ m1 f m2,
    GetWriterOn (afs := memMapFs "\") Fixture.denormalizeWin
      (mkClient "c:\root" Fixture.storage) "/a/new.txt" = (m1, inl f)
    ∧ Write (Fs := memMapFs "\") m1 f "hello"
      = (m2, (Z.of_nat (String.length "hello"), None))
    ∧ LoadNode (afs := memMapFs "\") (files := memMapFiles) "\"
        Fixture.denormalizeWin id "fresh" (mkClient "c:\root" m2) "/a/new.txt" []
      = Returns (m2,
                 (Some (mkLoaded (tree.mk "/a/new.txt" tree.NodeType_LEAF "")
                          (id "hello")
                          (Some (FileInfo.mk (Z.of_nat (String.length "hello")) false))),
                  None)).
Proof.
  assert (Fixture.storage !! Fixture.denormalizeWin "/a/new.txt" = None) as Habsent
    by (vm_compute; reflexivity).
  exact (written_content_is_loaded "\"%char Fixture.denormalizeWin id "c:\root"
           Fixture.storage "/a/new.txt" "hello" "fresh" Fixture_storage_built
           eq_refl Habsent).
Defined.

(* ===================================================================== *)
(** * Further properties: [PipeChan] *)
(* ===================================================================== *)

Module PipeChanBounds.
Import PipeChan PipeChanSpec.

Section Bounds.
Context {A : Type}.
Variable capacity : Z.
Hypothesis capacity_pos : 0 < capacity.
Variable input : list A.

Implicit Types (s : state (A := A)).

Lemma caps_step who s s' :
  invariant capacity input s →
  (∀ i ch, segs s !! i = Some ch → capacity ≤ cap ch) →
  step capacity who s = Next s' →
  ∀ i ch, segs s' !! i = Some ch → capacity ≤ cap ch.
Proof.
  intros (Hc & Hg & _) Hcaps Hstep i ch' Hi.
  destruct who; PipeChanFacts.turns Hstep; cbn in *.
  all: try (by eapply Hcaps).
  all: repeat match goal with
         | H : (_ ++ [_]) !! _ = Some _ |- _ =>
             apply PipeChanFacts.lookup_snoc_cases in H as [[? H]|[? ?]]
         | H : <[_ := _]> _ !! _ = Some _ |- _ =>
             apply PipeChanFacts.lookup_insert_cases in H as [(? & ? & ?)|[? H]]
         end; simplify_eq; cbn [cap make push pop close].
  all: try (by eapply Hcaps).
  all: try lia.
  all: repeat match goal with
         | H : segs _ !! _ = Some _ |- _ =>
             pose proof (Hcaps _ _ H); try pose proof (g_room _ _ Hg _ H); revert H
         end; intros.
  all: repeat match goal with
         | H : sp ?x = _ |- _ => rewrite H in *
         end.
  all: intuition lia.
Qed.

(** X14. No channel that [PipeChan] makes is smaller than the capacity it was
    called with, however often it grows and shrinks. *)
Theorem channels_never_below_capacity s :
  reachable capacity input s →
  ∀ i ch, segs s !! i = Some ch → capacity ≤ cap ch.
Proof.
  induction 1 as [|s who s' Hreach IH Hstep]; [by intros i ch H|].
  eapply caps_step; [|done|done].
  by apply PipeChanFacts.invariant_reachable.
Qed.

(** X15. The first goroutine never waits for the reader: it is blocked only at
    its range over an empty and open [inputCh], at the send of a new
    channel on [channels] when that holds 1000 channels, or when it is
    done. Its send on the current channel always has room. *)
Theorem splitter_waits_only_for_input s :
  reachable capacity input s →
  step capacity Splitter s = Blocked →
  (sp s = SRange ∧ buf (inputCh s) = [] ∧ closed (inputCh s) = false)
  ∨ (pushing (sp s) = true ∧ 1000 ≤ len (channels s))
  ∨ sp s = SDone.
Proof.
  intros Hreach Hstep.
  pose proof (PipeChanFacts.invariant_reachable capacity capacity_pos input s Hreach)
    as Hinv.
  pose proof Hinv as (Hc & Hg & _). destruct Hc.
  cbn [step] in Hstep.
  destruct (sp s) eqn:Hsp; unfold splitterTurn, pushCurr, replaceCurr in Hstep;
    rewrite Hsp in Hstep; try discriminate.
  all: try (right; left; split; [done|];
            destruct (closed (channels s)); [discriminate|];
            destruct (len (channels s) <? cap (channels s)) eqn:E; [discriminate|];
            apply Z.ltb_ge in E; lia).
  all: try (by right; right).
  all: try (repeat (match type of Hstep with
                    | context [match ?x with _ => _ end] => destruct x eqn:?
                    end; try discriminate); fail).
  - left. destruct (buf (inputCh s)); [|discriminate].
    by destruct (closed (inputCh s)).
  - destruct (segs s !! currCh s) as [ch|] eqn:Hch; [|discriminate].
    pose proof (g_room _ _ Hg _ Hch) as Hroom. rewrite Hsp in Hroom.
    destruct (closed ch); [discriminate|].
    destruct (len ch <? cap ch) eqn:E; [discriminate|].
    apply Z.ltb_ge in E. lia.
Qed.

(** X16. When [outputCh] is closed the pipe is wound up: both goroutines have
    ended, [inputCh] and [channels] are closed and empty, nothing is left
    to send, and every channel that was made is closed and empty. *)
Theorem closed_output_means_wound_up s :
  reachable capacity input s →
  closed (outputCh s) = true →
  sp s = SDone ∧ dr s = DDone
  ∧ toSend s = []
  ∧ (closed (inputCh s) = true ∧ buf (inputCh s) = [])
  ∧ (closed (channels s) = true ∧ buf (channels s) = [])
  ∧ ∀ i ch, segs s !! i = Some ch → closed ch = true ∧ buf ch = [].
Proof.
  intros Hreach Hcl.
  pose proof (PipeChanFacts.invariant_reachable capacity capacity_pos input s Hreach)
    as (Hc & Hg & _).
  destruct Hc. apply c_output_closed0 in Hcl. rewrite Hcl in *.
  destruct c_drained0 as [Hch Hq]. pose proof Hch as Hdone.
  apply c_channels_closed0 in Hdone. rewrite Hdone in *.
  destruct c_range_over0 as [Hin Hbuf].
  destruct (g_queue _ _ Hg) as (k & _ & Hk & _ & Hd).
  unfold pushed in Hk. rewrite Hq, Hdone, Hcl in *. cbn in Hk, Hd.
  repeat split; try done; try (by apply c_sent0).
  all: pose proof (lookup_lt_Some _ _ _ H) as Hlt.
  all: destruct (Hd i ch H) as [Hb Hc]; [lia|done].
Qed.
End Bounds.

Lemma channels_never_below_capacity_witness :
  ∃ s ch, run 2 (Sender :: Sender :: replicate 9 Splitter)
            (init 2 Fixture.burst) = Some s
          ∧ segs s !! 1%nat = Some ch
          ∧ 2 ≤ cap ch.
Proof.
  destruct (run 2 (Sender :: Sender :: replicate 9 Splitter) (init 2 Fixture.burst))
    as [s|] eqn:Hrun; [|vm_compute in Hrun; discriminate].
  pose proof Hrun as Hs. vm_compute in Hs. injection Hs as <-.
  eexists _, _. split; [reflexivity|]. split; [reflexivity|].
  exact (channels_never_below_capacity 2 ltac:(lia) Fixture.burst _
           (PipeChanFacts.run_reachable 2 Fixture.burst _ _ _
              (reach_init 2 Fixture.burst) Hrun)
           1%nat _ eq_refl).
Defined.

Lemma splitter_waits_only_for_input_witness :
  ∃ s, run 2 [Splitter; Splitter] (init 2 Fixture.burst) = Some s
       ∧ step 2 Splitter s = Blocked
       ∧ ((sp s = SRange ∧ buf (inputCh s) = [] ∧ closed (inputCh s) = false)
          ∨ (pushing (sp s) = true ∧ 1000 ≤ len (channels s))
          ∨ sp s = SDone).
Proof.
  eexists. split; [vm_compute; reflexivity|]. split; [reflexivity|].
  apply (splitter_waits_only_for_input 2 ltac:(lia) Fixture.burst);
    [|reflexivity].
  apply (PipeChanFacts.run_reachable 2 Fixture.burst [Splitter; Splitter]
           (init 2 Fixture.burst)); [apply reach_init|].
  vm_compute. reflexivity.
Defined.

Lemma closed_output_means_wound_up_witness :
  ∃ s, run 2 (concat (replicate 40 [Sender; Splitter; Drainer; Reader]))
         (init 2 Fixture.burst) = Some s
       ∧ closed (outputCh s) = true
       ∧ sp s = SDone ∧ dr s = DDone
       ∧ toSend s = []
       ∧ (closed (inputCh s) = true ∧ buf (inputCh s) = [])
       ∧ (closed (channels s) = true ∧ buf (channels s) = [])
       ∧ ∀ i ch, segs s !! i = Some ch → closed ch = true ∧ buf ch = [].
Proof.
  eexists. split; [vm_compute; reflexivity|]. split; [reflexivity|].
  apply (closed_output_means_wound_up 2 ltac:(lia) Fixture.burst);
    [|reflexivity].
  apply (PipeChanFacts.run_reachable 2 Fixture.burst
           (concat (replicate 40 [Sender; Splitter; Drainer; Reader]))
           (init 2 Fixture.burst)); [apply reach_init|].
  vm_compute. reflexivity.
Defined.
End PipeChanBounds.

(* ===================================================================== *)
(** * Further properties: the sessions of [Watch] *)
(* ===================================================================== *)

Module WatchFacts.
Import Watch WatchSpec.

Section Facts.
Context {S : Type} {afs : Fs S}.
Variable translate : FSClient S → notify.EventInfo → forwarded.
Variable c : FSClient S.
Variable raw : list notify.EventInfo.

Implicit Types (s : session) (schedule : list actor).

Lemma eventsOf_snoc taken event :
  eventsOf translate c (taken ++ [event])
  = eventsOf translate c taken
    ++ match translate c event with ToEventChan ev => [ev] | _ => [] end.
Proof.
  unfold eventsOf. rewrite omap_app. cbn. by destruct (translate c event).
Qed.

Lemma errorsOf_snoc taken event :
  errorsOf translate c (taken ++ [event])
  = errorsOf translate c taken
    ++ match translate c event with ToErrorChan e => [e] | _ => [] end.
Proof.
  unfold errorsOf. rewrite omap_app. cbn. by destruct (translate c event).
Qed.

Lemma undisturbed_start : undisturbed translate c raw [] (start raw).
Proof. by repeat split. Qed.

Lemma undisturbed_step who s taken :
  undisturbed translate c raw taken s → who ≠ Owner →
  step translate c who s = Blocked
  ∨ ∃ s' taken', step translate c who s = Next s'
                 ∧ undisturbed translate c raw taken' s'.
Proof.
  intros (Hraw & Hsub & Hcl & Hev & Her & Hevents & Herrors) Hwho.
  destruct who; [| done | | |]; cbn [step].
  - unfold sourceTurn. destruct (source s) as [|e rest] eqn:Hsrc; [by left|].
    rewrite Hsub. right. eexists _, taken. split; [done|].
    repeat split; cbn; try done. by rewrite Hraw, <- !app_assoc.
  - unfold closerTurn. rewrite Hcl. by left.
  - unfold forwarderTurn. destruct (fw s) eqn:Hfw.
    + destruct (piped s) as [|event rest] eqn:Hp; [by left|]. right.
      assert (raw = (taken ++ [event]) ++ rest ++ source s) as Hraw'
        by (by rewrite Hraw, <- !app_assoc).
      cbn in Hevents, Herrors. rewrite app_nil_r in Hevents, Herrors.
      destruct (translate c event) as [e|ev|] eqn:Ht;
        eexists _, (taken ++ [event]); (split; [done|]);
        repeat split; cbn; try done;
        rewrite ?eventsOf_snoc, ?errorsOf_snoc, Ht, ?app_nil_r; congruence.
    + rewrite Her. by left.
    + rewrite Hev. by left.
  - unfold readerTurn. destruct (fw s) eqn:Hfw; [by left| |].
    + rewrite Her. right. eexists _, taken. split; [done|].
      repeat split; cbn; try done; cbn in Hevents, Herrors;
        rewrite ?app_nil_r in *; done.
    + rewrite Hev. right. eexists _, taken. split; [done|].
      repeat split; cbn; try done; cbn in Hevents, Herrors;
        rewrite ?app_nil_r in *; done.
Qed.

Lemma undisturbed_run schedule : ∀ s taken,
  undisturbed translate c raw taken s → Owner ∉ schedule →
  ∃ s' taken', run translate c schedule s = Next s'
               ∧ undisturbed translate c raw taken' s'.
Proof.
  induction schedule as [|who rest IH]; intros s taken Hs Hno.
  - by exists s, taken.
  - apply not_elem_of_cons in Hno as [Hwho Hrest]. cbn [run].
    destruct (undisturbed_step who s taken Hs) as [Hb|(s1 & t1 & Hstep & Hs1)];
      [done| |].
    + rewrite Hb. by apply (IH s taken).
    + rewrite Hstep. by apply (IH s1 t1).
Qed.

(** X17. As long as nobody asks the session to end, it does not panic under any
    schedule, both channels stay open, and what the consumer has read on
    [eventChan] and on [errorChan], followed by the value the loop is
    waiting to send, is what the loop makes of the notifications it has
    taken, in the order in which they were notified. *)
Theorem undisturbed_session_forwards_in_order schedule :
  Owner ∉ schedule →
  ∃ s taken,
    run translate c schedule (start raw) = Next s
    ∧ raw = taken ++ piped s ++ source s
    ∧ eventChanClosed s = false ∧ errorChanClosed s = false
    ∧ events s ++ sendingEvent (fw s) = eventsOf translate c taken
    ∧ errors s ++ sendingError (fw s) = errorsOf translate c taken.
Proof.
  intros Hno.
  destruct (undisturbed_run schedule (start raw) [] undisturbed_start Hno)
    as (s & taken & Hrun & Hraw & _ & _ & Hev & Her & Hevents & Herrors).
  by exists s, taken.
Qed.

Lemma eventsOf_cons event rest :
  eventsOf translate c (event :: rest)
  = match translate c event with ToEventChan ev => [ev] | _ => [] end
    ++ eventsOf translate c rest.
Proof. unfold eventsOf. cbn. by destruct (translate c event). Qed.

Lemma errorsOf_cons event rest :
  errorsOf translate c (event :: rest)
  = match translate c event with ToErrorChan e => [e] | _ => [] end
    ++ errorsOf translate c rest.
Proof. unfold errorsOf. cbn. by destruct (translate c event). Qed.

Lemma roundRobin_run : ∀ (todo : list notify.EventInfo) s,
  source s = todo → subscribed s = true → piped s = [] → fw s = FRange →
  eventChanClosed s = false → errorChanClosed s = false →
  ∃ s', run translate c (roundRobin todo) s = Next s'
        ∧ source s' = [] ∧ piped s' = [] ∧ fw s' = FRange
        ∧ cl s' = cl s
        ∧ events s' = events s ++ eventsOf translate c todo
        ∧ errors s' = errors s ++ errorsOf translate c todo.
Proof.
  induction todo as [|event rest IH]; intros s Hsrc Hsub Hp Hfw Hev Her.
  - exists s. cbn. by rewrite !app_nil_r.
  - change (roundRobin (event :: rest))
      with ([Source; Forwarder; Reader] ++ roundRobin rest).
    rewrite eventsOf_cons, errorsOf_cons.
    cbn [app run step]. unfold sourceTurn. rewrite Hsrc, Hsub, Hp. cbn [app].
    unfold forwarderTurn at 1. cbn [fw piped]. rewrite Hfw.
    destruct (translate c event) as [e|ev|] eqn:Ht; cbn [forwarderAt].
    + unfold readerTurn at 1. cbn [fw errorChanClosed]. rewrite Her.
      edestruct (IH (mkSession rest true [] (cl s) FRange (eventChanClosed s)
                       false (events s) (errors s ++ [e])))
        as (s' & Hrun & H1 & H2 & H3 & H4 & H5 & H6); try done.
      exists s'. cbn in *. split; [exact Hrun|]. repeat split; try done.
      by rewrite H6, <- app_assoc.
    + unfold readerTurn at 1. cbn [fw eventChanClosed]. rewrite Hev.
      edestruct (IH (mkSession rest true [] (cl s) FRange false
                       (errorChanClosed s) (events s ++ [ev]) (errors s)))
        as (s' & Hrun & H1 & H2 & H3 & H4 & H5 & H6); try done.
      exists s'. cbn in *. split; [exact Hrun|]. repeat split; try done.
      by rewrite H5, <- app_assoc.
    + unfold readerTurn at 1. cbn [fw].
      edestruct (IH (mkSession rest true [] (cl s) FRange (eventChanClosed s)
                       (errorChanClosed s) (events s) (errors s)))
        as (s' & Hrun & H1 & H2 & H3 & H4 & H5 & H6); try done.
      exists s'. cbn in *. split; [exact Hrun|]. by repeat split.
Qed.

(** X18. Every notification can be delivered: under the schedule that lets the
    source, the loop and the consumer take one turn each per notification,
    the session ends with the pipe empty and the consumer has read, on the
    two channels, what the loop makes of all the notifications, in
    order. *)
Theorem every_notification_can_be_delivered :
  ∃ s,
    run translate c (roundRobin raw) (start raw) = Next s
    ∧ source s = [] ∧ piped s = [] ∧ fw s = FRange
    ∧ events s = eventsOf translate c raw
    ∧ errors s = errorsOf translate c raw.
Proof.
  destruct (roundRobin_run raw (start raw))
    as (s & Hrun & H1 & H2 & H3 & _ & H5 & H6); try done.
  by exists s.
Qed.

Lemma quiet_step who s :
  quiet s →
  step translate c who s = Blocked
  ∨ ∃ s', step translate c who s = Next s' ∧ quiet s'
          ∧ events s' = events s ∧ errors s' = errors s.
Proof.
  intros (Hsub & Hp & Hfw & Hcl). destruct who; cbn [step].
  - unfold sourceTurn. rewrite Hsub. left. by destruct (source s).
  - unfold ownerTurn. by destruct (cl s); [done|left..].
  - unfold closerTurn. destruct (cl s) eqn:E; try done; try (by left).
    + destruct Hcl as [-> Her]. right. eexists. split; [done|].
      by repeat split.
    + rewrite Hcl. right. eexists. split; [done|]. by repeat split.
  - unfold forwarderTurn. rewrite Hfw, Hp. by left.
  - unfold readerTurn. rewrite Hfw. by left.
Qed.

Lemma quiet_run schedule : ∀ s,
  quiet s →
  ∃ s', run translate c schedule s = Next s' ∧ quiet s'
        ∧ events s' = events s ∧ errors s' = errors s.
Proof.
  induction schedule as [|who rest IH]; intros s Hs; [by exists s|].
  cbn [run]. destruct (quiet_step who s Hs) as [Hb|(s1 & Hstep & Hs1 & He1 & He2)].
  - rewrite Hb. by apply IH.
  - rewrite Hstep. destruct (IH s1 Hs1) as (s' & Hrun & Hq & H1 & H2).
    exists s'. split; [done|]. split; [done|]. split; congruence.
Qed.

Lemma run_app schedule schedule' : ∀ s s',
  run translate c schedule s = Next s' →
  run translate c (schedule ++ schedule') s = run translate c schedule' s'.
Proof.
  induction schedule as [|who rest IH]; intros s s' Hrun; cbn in *.
  - by simplify_eq.
  - destruct (step translate c who s); [by apply IH | by apply IH | done].
Qed.

(** X19. A session that is asked to end, and stopped, while the pipe is empty
    and the loop waits for the next notification, ends well: whatever the
    schedule from there on, nothing panics and the consumer reads
    nothing more. *)
Theorem stop_on_an_empty_pipe_is_safe schedule schedule' s :
  Owner ∉ schedule →
  run translate c schedule (start raw) = Next s →
  piped s = [] →
  fw s = FRange →
  ∃ s', run translate c (schedule ++ Owner :: Closer :: schedule') (start raw)
        = Next s'
        ∧ events s' = events s ∧ errors s' = errors s.
Proof.
  intros Hno Hrun Hp Hfw.
  destruct (undisturbed_run schedule (start raw) [] undisturbed_start Hno)
    as (s0 & taken & Hrun0 & _ & Hsub & Hcl & Hev & Her & _).
  rewrite Hrun in Hrun0. injection Hrun0 as <-.
  rewrite (run_app schedule _ _ s Hrun). cbn [run step].
  unfold ownerTurn. rewrite Hcl. unfold closerTurn at 1. cbn [closerAt cl].
  edestruct (quiet_run schedule') as (s' & Hrun' & _ & H1 & H2);
    [|exists s'; split; [exact Hrun'|by split]].
  by repeat split.
Qed.
End Facts.

Lemma undisturbed_session_forwards_in_order_witness :
  ∃ s taken,
    run Fixture.diskLoopBody Fixture.client
      [Source; Source; Forwarder; Reader; Forwarder; Closer]
      (start Fixture.burst) = Next s
    ∧ Fixture.burst = taken ++ piped s ++ source s
    ∧ eventChanClosed s = false ∧ errorChanClosed s = false
    ∧ events s ++ sendingEvent (fw s)
      = eventsOf Fixture.diskLoopBody Fixture.client taken
    ∧ errors s ++ sendingError (fw s)
      = errorsOf Fixture.diskLoopBody Fixture.client taken.
Proof.
  apply (undisturbed_session_forwards_in_order Fixture.diskLoopBody Fixture.client
           Fixture.burst [Source; Source; Forwarder; Reader; Forwarder; Closer]).
  intros H. apply list_elem_of_In in H. cbn in H. intuition discriminate.
Defined.

Lemma stop_on_an_empty_pipe_is_safe_witness :
  ∃ s s',
    run Fixture.diskLoopBody Fixture.client [Source; Forwarder; Reader]
      (start [Fixture.removeReadme]) = Next s
    ∧ run Fixture.diskLoopBody Fixture.client
        ([Source; Forwarder; Reader]
           ++ Owner :: Closer :: [Closer; Forwarder; Closer; Source; Reader])
        (start [Fixture.removeReadme]) = Next s'
    ∧ events s' = events s ∧ errors s' = errors s.
Proof.
  assert (Owner ∉ [Source; Forwarder; Reader]) as Hno.
  { intros H. apply list_elem_of_In in H. cbn in H. intuition discriminate. }
  destruct (run Fixture.diskLoopBody Fixture.client [Source; Forwarder; Reader]
              (start [Fixture.removeReadme])) as [s| |] eqn:Hrun.
  - pose proof Hrun as Hs. vm_compute in Hs. injection Hs as <-.
    destruct (stop_on_an_empty_pipe_is_safe Fixture.diskLoopBody Fixture.client
                [Fixture.removeReadme] [Source; Forwarder; Reader]
                [Closer; Forwarder; Closer; Source; Reader] _
                Hno Hrun eq_refl eq_refl) as (s' & Hrun' & Hev & Her).
    eexists _, s'. split; [reflexivity|]. split; [exact Hrun'|]. by split.
  - vm_compute in Hrun. discriminate.
  - vm_compute in Hrun. discriminate.
Defined.
End WatchFacts.

(* ===================================================================== *)
(** * Further properties: what the translator never answers *)
(* ===================================================================== *)

Section TranslatorShape.
Context {S : Type} {afs : Fs S}.
Variable GOOS : string.
Variable EvalSymlinks : string → string + error.
Variable VolumeName : string → string.
Variable normalize : string → string.
Variable K : notify.Events.
Variable now : string.

Local Abbreviation eventPath c event := (eventPathOf GOOS EvalSymlinks VolumeName c event).
Local Abbreviation translate :=
  (notifyEventToEventInfo GOOS EvalSymlinks VolumeName normalize K now).

(** X20. Whatever the notification and the backend, the translator answers
    either the empty event, with or without an error, or no error and an
    event that carries the time of the call, the normalized event path and
    the endpoint, and whose type is Create, Rename or Remove, never Write;
    a Remove event has size 0 and is no folder. *)
Theorem translation_shape (c : FSClient S) (event : notify.EventInfo) :
  fst (translate c event) = common.empty
  ∨ (snd (translate c event) = None
     ∧ common.Time (fst (translate c event)) = now
     ∧ common.Path (fst (translate c event)) = normalize (eventPath c event)
     ∧ common.PathSyncSource (fst (translate c event)) = Some (RootPath c)
     ∧ (common.Type_ (fst (translate c event)) = common.EventCreate
        ∨ common.Type_ (fst (translate c event)) = common.EventRename
        ∨ (common.Type_ (fst (translate c event)) = common.EventRemove
           ∧ common.Size (fst (translate c event)) = 0
           ∧ common.Folder (fst (translate c event)) = false))).
Proof.
  unfold notifyEventToEventInfo.
  destruct (isEventType (EventTypeCreate K) (notify.Event event)
            || isEventType (EventTypeWrite K) (notify.Event event)).
  - destruct (Stat (FS c) (eventPath c event)) as [i|e].
    + right. cbn. repeat split. by left.
    + left. by destruct (IsNotExist (Some e)).
  - destruct (isEventType (EventTypeRename K) (notify.Event event)).
    + destruct (Stat (FS c) (eventPath c event)) as [i|e].
      * right. cbn. repeat split. right. by left.
      * destruct (IsNotExist (Some e)); [|by left].
        right. cbn. repeat split. right. right. by repeat split.
    + destruct (isEventType (EventTypeDelete K) (notify.Event event)); cbn;
        [|by left].
      right. repeat split. right. right. by repeat split.
Qed.
End TranslatorShape.

Section MissingPath.
Context {S : Type} {afs : Fs S} {files : FsFiles S}.
Variable sep : ascii.
Variable denormalize : string → string.
Variable md5hex : string → string.
Variable newV4 : string.

(** X21. A path that the stat reports as missing, on any backend: [MoveNode]
    and [DeleteNode] leave the storage as it is and answer no error,
    [LoadNode] without a leaf flag answers the error of the stat, and
    [GetWriterOn] answers what [Create] answers. *)
Theorem missing_path_in_node_operations
    (c : FSClient S) (p q : string) (e : error) :
  Stat (FS c) (denormalize p) = inr e →
  IsNotExist (Some e) = true →
  MoveNode denormalize c p q = Returns (FS c, None)
  ∧ DeleteNode denormalize c p = (FS c, None)
  ∧ LoadNode sep denormalize md5hex newV4 c p [] = Returns (FS c, (None, Some e))
  ∧ GetWriterOn denormalize c p = Create (FS c) (denormalize p).
Proof.
  intros Hstat He. unfold MoveNode, DeleteNode, LoadNode, GetWriterOn.
  rewrite Hstat. cbn [errOf]. rewrite He. by cbn [negb].
Qed.
End MissingPath.

Lemma missing_path_in_node_operations_witness :
  MoveNode (afs := memMapFs "\") Fixture.denormalizeWin Fixture.client
    "/gone" "/docs/gone"
  = Returns (Fixture.storage, None)
  ∧ DeleteNode (afs := memMapFs "\") (files := memMapFiles)
      Fixture.denormalizeWin Fixture.client "/gone"
    = (Fixture.storage, None)
  ∧ LoadNode (afs := memMapFs "\") (files := memMapFiles) "\"
      Fixture.denormalizeWin id "fresh" Fixture.client "/gone" []
    = Returns (Fixture.storage, (None, Some ErrNotExist))
  ∧ GetWriterOn (afs := memMapFs "\") Fixture.denormalizeWin Fixture.client "/gone"
    = Create (Fs := memMapFs "\") Fixture.storage (Fixture.denormalizeWin "/gone").
Proof.
  assert (Stat (Fs := memMapFs "\") (FS Fixture.client)
            (Fixture.denormalizeWin "/gone") = inr ErrNotExist) as Hstat
    by (vm_compute; reflexivity).
  exact (missing_path_in_node_operations (afs := memMapFs "\")
           (files := memMapFiles) "\"%char Fixture.denormalizeWin id "fresh"
           Fixture.client "/gone" "/docs/gone" ErrNotExist Hstat eq_refl).
Defined.
